(** * GoGrey: luminosity greyscale conversion (main.go)

    A shallow embedding of [toGreyscale], [encodeImage] and [main] (its
    output file name, and its run over the collaborators it calls),
    together with the parts of Go's [image], [image/color], [math],
    [strings] and [path/filepath] packages that these functions call.

    Conventions of the embedding
    - [uint8] is [Byte.byte]; [uint32] values are [Z] with the wrap-around
      written out ([wrap32]); Go's [int] has 64 bits (amd64) and is a [Z]
      between [-2^63] and [2^63 - 1], with the wrap-around of its
      subtraction and multiplication written out ([int_wrap]) where the
      operands do not bound the result.  [make] panics above the largest
      allocation of the runtime ([maxAlloc]); below it, memory is taken to
      suffice.
    - [float64] is Rocq's primitive binary64 float.  Every operation is
      rounded on its own (no fused multiply-add), as the gc compiler does on
      amd64.
    - A Go string is its sequence of bytes, [list byte].
    - A run-time panic is [None] in the [option] monad. *)

From Stdlib Require Import ZArith List Floats Lia Bool String.
From Stdlib.Strings Require Import Byte.
From stdpp Require Import base option list list_numbers.

Open Scope Z_scope.

(** ** Machine types *)

Definition uint8 : Type := byte.

Definition Z_of_uint8 (b : uint8) : Z := Z.of_N (Byte.to_N b).

(** Conversion of an integer to [uint8] keeps the low eight bits. *)
Definition uint8_of_Z (z : Z) : uint8 :=
  match Byte.of_N (Z.to_N (z mod 256)) with
  | Some b => b
  | None => x00
  end.

Definition wrap32 (z : Z) : Z := z mod 2 ^ 32.

(** The value of a 64-bit [int] after an operation whose exact result is
    [z]: the result wraps around. *)
Definition int_wrap (z : Z) : Z := (z + 2 ^ 63) mod 2 ^ 64 - 2 ^ 63.

Definition is_int (z : Z) : Prop := - 2 ^ 63 <= z < 2 ^ 63.

(** The largest allocation of the runtime, in bytes: [1 << heapAddrBits],
    with 48 address bits on amd64. *)
Definition maxAlloc : Z := 2 ^ 48.

(** [make([]uint8, n)]: a zeroed slice; the runtime ([makeslice]) panics
    ("len out of range") when [n] is negative or above [maxAlloc]. *)
Definition make_uint8 (n : Z) : option (list byte) :=
  if (n <? 0) || (maxAlloc <? n) then None else Some (replicate (Z.to_nat n) x00).

Definition float64 : Type := float.

(** [float64(b)] for a [uint8] [b]: exact. *)
Definition float64_of_Z (n : Z) : float64 := of_uint63 (Uint63.of_Z n).
Definition float64_of_uint8 (b : uint8) : float64 := float64_of_Z (Z_of_uint8 b).

(** The integer part of a float, rounding toward zero. *)
Definition trunc_Z (x : spec_float) : Z :=
  match x with
  | S754_finite s m e =>
      cond_Zopp s (if 0 <=? e then Z.pos m * 2 ^ e else Z.pos m / 2 ^ (- e))
  | _ => 0
  end.

Definition int_of_float64 (x : float64) : Z := trunc_Z (Prim2SF x).

(** [uint8(x)] for a [float64] [x]: the fraction is discarded; for a value
    that does not fit, Go leaves the result to the implementation.  The gc
    compiler on amd64 converts to a 32-bit integer and keeps its low eight
    bits; a value outside the 32-bit range (or not a number) converts to
    [-2^31], whose low eight bits are zero. *)
Definition uint8_of_float64 (x : float64) : uint8 :=
  let t := int_of_float64 x in
  if (- 2 ^ 31 <=? t) && (t <? 2 ^ 31) then uint8_of_Z t else x00.

(** The exact value of a float, scaled by [2^1074] (every finite binary64
    number is an integer multiple of [2^-1074]). *)
Definition SFscaled (x : spec_float) : Z :=
  match x with
  | S754_finite s m e => cond_Zopp s (Z.pos m * 2 ^ (e + 1074))
  | _ => 0
  end.

Definition float64_scaled (x : float64) : Z := SFscaled (Prim2SF x).

(** A Go string literal. *)
Definition str (s : string) : list byte := list_byte_of_string s.

#[global] Instance byte_eq_decision : EqDecision byte := Byte.byte_eq_dec.

(** ** Package math *)

Module math.

(** Nearest integer of [m * 2^e], halves away from zero, as a float. *)
Definition round_half_away (x : spec_float) : spec_float :=
  match x with
  | S754_finite s m e =>
      if 0 <=? e then x
      else
        let q := Z.pos m / 2 ^ (- e) in
        let r := Z.pos m mod 2 ^ (- e) in
        let n := if 2 ^ (- e) <=? 2 * r then q + 1 else q in
        binary_normalize prec emax (cond_Zopp s n) 0 s
  | _ => x
  end.

(** [math.Round]: "Round returns the nearest integer, rounding half away
    from zero"; zeros, infinities and NaN are returned unchanged. *)
Definition Round (x : float64) : float64 := SF2Prim (round_half_away (Prim2SF x)).

End math.

(** ** Package image/color *)

Module color.

(** [color.RGBA]: 8 bits for each of red, green, blue and alpha. *)
Record RGBA : Type := mkRGBA { R : uint8; G : uint8; B : uint8; A : uint8 }.

(** [color.NRGBA]: non-alpha-premultiplied 8-bit channels. *)
Record NRGBA : Type := mkNRGBA { nR : uint8; nG : uint8; nB : uint8; nA : uint8 }.

(** A value of the interface [color.Color], by its dynamic type.  [Other]
    stands for any further implementation of the interface, given by the
    four [uint32] results of its [RGBA] method. *)
Inductive Color : Type :=
| InRGBA (c : RGBA)
| InNRGBA (c : NRGBA)
| InGray (Y : uint8)
| Other (r g b a : Z).

(** [x |= x << 8] on a [uint32] that holds a [uint8]. *)
Definition dup8 (b : uint8) : Z :=
  let x := Z_of_uint8 b in Z.lor x (Z.shiftl x 8).

(** The method [RGBA() (r, g, b, a uint32)] of the interface. *)
Definition Color_RGBA (c : Color) : Z * Z * Z * Z :=
  match c with
  | InRGBA c => (dup8 (R c), dup8 (G c), dup8 (B c), dup8 (A c))
  | InNRGBA c =>
      let a := Z_of_uint8 (nA c) in
      (wrap32 (dup8 (nR c) * a) / 255,
       wrap32 (dup8 (nG c) * a) / 255,
       wrap32 (dup8 (nB c) * a) / 255,
       dup8 (nA c))
  | InGray Y => (dup8 Y, dup8 Y, dup8 Y, 65535)
  | Other r g b a => (wrap32 r, wrap32 g, wrap32 b, wrap32 a)
  end.

(** [rgbaModel], the conversion function of [color.RGBAModel]. *)
Definition rgbaModel (c : Color) : Color :=
  match c with
  | InRGBA _ => c
  | _ =>
      let '(r, g, b, a) := Color_RGBA c in
      InRGBA (mkRGBA (uint8_of_Z (Z.shiftr r 8)) (uint8_of_Z (Z.shiftr g 8))
                     (uint8_of_Z (Z.shiftr b 8)) (uint8_of_Z (Z.shiftr a 8)))
  end.

(** [color.RGBAModel.Convert]. *)
Definition RGBAModel_Convert (c : Color) : Color := rgbaModel c.

(** The type assertion [c.(color.RGBA)]; it panics on another dynamic
    type. *)
Definition assert_RGBA (c : Color) : option RGBA :=
  match c with
  | InRGBA c => Some c
  | _ => None
  end.

(** A colour whose [RGBA] results respect the contract of the interface:
    16-bit channels, each colour channel scaled by alpha. *)
Definition premultiplied (c : Color) : Prop :=
  let '(r, g, b, a) := Color_RGBA c in
  r <= a /\ g <= a /\ b <= a /\ a <= 65535.

End color.

(** ** Package image *)

Module image.

Record Point : Type := mkPoint { X : Z; Y : Z }.

Record Rectangle : Type := mkRectangle { Min : Point; Max : Point }.

(** [image.Rect]: the rectangle with the given corners, made well-formed. *)
Definition Rect (x0 y0 x1 y1 : Z) : Rectangle :=
  let '(x0, x1) := if x1 <? x0 then (x1, x0) else (x0, x1) in
  let '(y0, y1) := if y1 <? y0 then (y1, y0) else (y0, y1) in
  mkRectangle (mkPoint x0 y0) (mkPoint x1 y1).

(** [Rectangle.Dx] and [Rectangle.Dy]: subtractions of [int]s. *)
Definition Dx (r : Rectangle) : Z := int_wrap (X (Max r) - X (Min r)).
Definition Dy (r : Rectangle) : Z := int_wrap (Y (Max r) - Y (Min r)).

(** [Rectangle.Size]. *)
Definition Size (r : Rectangle) : Point := mkPoint (Dx r) (Dy r).

(** [Point.In]. *)
Definition In (p : Point) (r : Rectangle) : bool :=
  (X (Min r) <=? X p) && (X p <? X (Max r)) &&
  (Y (Min r) <=? Y p) && (Y p <? Y (Max r)).

Definition well_formed (r : Rectangle) : Prop :=
  X (Min r) <= X (Max r) /\ Y (Min r) <= Y (Max r).

(** The coordinates of a rectangle are [int]s. *)
Definition int_coordinates (r : Rectangle) : Prop :=
  is_int (X (Min r)) /\ is_int (Y (Min r)) /\ is_int (X (Max r)) /\ is_int (Y (Max r)).

(** The interface [image.Image] (the colour model of an image plays no
    part in the conversion). *)
Record Image : Type := mkImage {
  Bounds : Rectangle;
  At : Z -> Z -> color.Color
}.

(** The in-memory image type [image.RGBA] and its methods. *)
Module RGBA.

Record t : Type := mk { Pix : list uint8; Stride : Z; Rect : Rectangle }.

Definition Bounds (p : t) : Rectangle := Rect p.

Definition PixOffset (p : t) (x y : Z) : Z :=
  (y - Y (Min (Rect p))) * Stride p + (x - X (Min (Rect p))) * 4.

(** The slice expression [p.Pix[i : i+4 : i+4]] panics out of range (of
    the capacity of [Pix], which for a slice made by [make] is its
    length). *)
Definition slice4 (p : t) (i : Z) : option (uint8 * uint8 * uint8 * uint8) :=
  if (0 <=? i) && (i + 4 <=? Z.of_nat (length (Pix p))) then
    s0 ← Pix p !! Z.to_nat i;
    s1 ← Pix p !! Z.to_nat (i + 1);
    s2 ← Pix p !! Z.to_nat (i + 2);
    s3 ← Pix p !! Z.to_nat (i + 3);
    Some (s0, s1, s2, s3)
  else None.

Definition RGBAAt (p : t) (x y : Z) : option color.RGBA :=
  if negb (In (mkPoint x y) (Rect p)) then
    Some (color.mkRGBA x00 x00 x00 x00)
  else
    '(s0, s1, s2, s3) ← slice4 p (PixOffset p x y);
    Some (color.mkRGBA s0 s1 s2 s3).

(** The method [Set] ([Set] is a reserved word here). *)
Definition Set_ (p : t) (x y : Z) (c : color.Color) : option t :=
  if negb (In (mkPoint x y) (Rect p)) then Some p
  else
    let i := PixOffset p x y in
    c1 ← color.assert_RGBA (color.RGBAModel_Convert c);
    _ ← slice4 p i;
    Some (mk (<[Z.to_nat (i + 3) := color.A c1]>
             (<[Z.to_nat (i + 2) := color.B c1]>
             (<[Z.to_nat (i + 1) := color.G c1]>
             (<[Z.to_nat i := color.R c1]> (Pix p)))))
             (Stride p) (Rect p)).

End RGBA.

(** [mul3NonNeg]: the product of three [int]s, or [-1] if one of them is
    negative or a product overflows.  [bits.Mul64] gives the high and the
    low 64 bits of the product of two unsigned 64-bit numbers.  (The
    library's last test, [uint64(a) != lo], is for an [int] of 32 bits and
    never holds for one of 64.) *)
Definition mul3NonNeg (x y z : Z) : Z :=
  if (x <? 0) || (y <? 0) || (z <? 0) then -1
  else
    let hi := (x * y) / 2 ^ 64 in
    let lo := (x * y) mod 2 ^ 64 in
    if negb (hi =? 0) then -1
    else
      let hi := (lo * z) / 2 ^ 64 in
      let lo := (lo * z) mod 2 ^ 64 in
      if negb (hi =? 0) then -1
      else
        let a := int_wrap lo in
        if a <? 0 then -1 else a.

(** [pixelBufferLength]: the length of the pixel buffer of a rectangle;
    it panics ("Rectangle has huge or negative dimensions") when
    [mul3NonNeg] reports an overflow. *)
Definition pixelBufferLength (bytesPerPixel : Z) (r : Rectangle) : option Z :=
  let totalLength := mul3NonNeg bytesPerPixel (Dx r) (Dy r) in
  if totalLength <? 0 then None else Some totalLength.

(** [image.NewRGBA]: a zeroed buffer of four bytes per pixel. *)
Definition NewRGBA (r : Rectangle) : option RGBA.t :=
  n ← pixelBufferLength 4 r;
  pix ← make_uint8 n;
  Some (RGBA.mk pix (int_wrap (4 * Dx r)) r).

End image.

(** ** Package strings and path/filepath *)

Module strings.

Definition HasSuffix (s suffix : list byte) : bool :=
  (length suffix <=? length s)%nat &&
  bool_decide (drop (length s - length suffix) s = suffix).

Definition TrimSuffix (s suffix : list byte) : list byte :=
  if HasSuffix s suffix then take (length s - length suffix) s else s.

End strings.

Module filepath.

Definition dot : byte := "."%byte.
Definition slash : byte := "/"%byte.

(** [os.IsPathSeparator] on Unix. *)
Definition IsPathSeparator (c : byte) : bool := bool_decide (c = slash).

(** The loop of [filepath.Ext]; [n] is [i + 1] for the index [i] that the
    loop looks at next. *)
Fixpoint Ext_loop (path : list byte) (n : nat) : list byte :=
  match n with
  | O => []
  | S i =>
      match path !! i with
      | Some c =>
          if IsPathSeparator c then []
          else if bool_decide (c = dot) then drop i path
          else Ext_loop path i
      | None => []
      end
  end.

Definition Ext (path : list byte) : list byte := Ext_loop path (length path).

End filepath.

(** ** main.go *)

(** A counted loop [for i := 0; i < n; i++] whose body may panic. *)
Fixpoint for_each {S : Type} (l : list Z) (body : Z -> S -> option S) (s : S) : option S :=
  match l with
  | [] => Some s
  | i :: l' => s' ← body i s; for_each l' body s'
  end.

Definition for_lt {S : Type} (n : Z) (body : Z -> S -> option S) (s : S) : option S :=
  for_each (seqZ 0 n) body s.

(** The coefficients, as the binary64 numbers nearest to 0.299, 0.587 and
    0.114. *)
Definition c_red : float64 := 0x1.322d0e5604189p-2%float.
Definition c_green : float64 := 0x1.2c8b439581062p-1%float.
Definition c_blue : float64 := 0x1.d2f1a9fbe76c9p-4%float.

(** The body of the inner loop of [toGreyscale]. *)
Definition greyscale_pixel (originalImage : image.Image) (x y : Z)
    (modifiedImg : image.RGBA.t) : option image.RGBA.t :=
  let pixel := image.At originalImage x y in
  originalColor ← color.assert_RGBA (color.RGBAModel_Convert pixel);
  let red := float64_of_uint8 (color.R originalColor) in
  let green := float64_of_uint8 (color.G originalColor) in
  let blue := float64_of_uint8 (color.B originalColor) in
  let grey :=
    uint8_of_float64 (math.Round (c_red * red + c_green * green + c_blue * blue)%float) in
  let modifiedColor := color.mkRGBA grey grey grey (color.A originalColor) in
  image.RGBA.Set_ modifiedImg x y (color.InRGBA modifiedColor).

Definition toGreyscale (originalImage : image.Image) : option image.RGBA.t :=
  let size := image.Size (image.Bounds originalImage) in
  let rect := image.Rect 0 0 (image.X size) (image.Y size) in
  modifiedImg ← image.NewRGBA rect;
  for_lt (image.X size)
    (fun x img => for_lt (image.Y size) (fun y img => greyscale_pixel originalImage x y img) img)
    modifiedImg.

(** [type imageFormat string] and its constants. *)
Definition imageFormat : Type := list byte.

Definition FormatJPEG : imageFormat := str "jpeg".
Definition FormatPNG : imageFormat := str "png".
Definition FormatGIF : imageFormat := str "gif".
Definition FormatUnknown : imageFormat := str "unknown".

(** [encodeImage], over the three serializers of the standard library.  A
    serializer takes the sink and returns it with what it wrote, and an
    error or [None] for [nil]; an error is given by its message. *)
Section Encoders.

Variables File Img : Type.
Variable jpeg_Encode : File -> Img -> Z -> File * option (list byte).
Variable png_Encode : File -> Img -> File * option (list byte).
Variable gif_Encode : File -> Img -> File * option (list byte).

Definition encodeImage (w : File) (img : Img) (format : imageFormat)
    : File * option (list byte) :=
  if decide (format = FormatJPEG) then jpeg_Encode w img 90
  else if decide (format = FormatPNG) then png_Encode w img
  else if decide (format = FormatGIF) then gif_Encode w img
  else (w, Some (str "unsupported output format: " ++ format)).

End Encoders.

(** The output file name built by [main] from its argument. *)
Definition outputFilename (inputFilename : list byte) : list byte :=
  let extension := filepath.Ext inputFilename in
  let baseName := strings.TrimSuffix inputFilename extension in
  baseName ++ str "_greyscale" ++ extension.

(** ** The extension as the specification words it

    The substring from the last ['.'] of the whole path to its end, empty
    when the path has no ['.']; and the output name built from it. *)
Fixpoint spec_extension (p : list byte) : list byte :=
  match p with
  | [] => []
  | c :: p' =>
      match spec_extension p' with
      | [] => if bool_decide (c = filepath.dot) then c :: p' else []
      | e => e
      end
  end.

Definition spec_outputFilename (p : list byte) : list byte :=
  let e := spec_extension p in
  take (length p - length e) p ++ str "_greyscale" ++ e.

(** ** Visually identical images, as the specification words it

    Two images show the same picture: they have the same pixel rectangle
    and, at each of its pixels, colours with the same components under the
    common colour model. *)
Definition spec_visually_identical (a b : image.Image) : Prop :=
  image.Bounds a = image.Bounds b /\
  forall x y, image.In (image.mkPoint x y) (image.Bounds a) = true ->
    color.Color_RGBA (image.At a x y) = color.Color_RGBA (image.At b x y).

(** ** Tables for the exhaustive check of the luminosity sum *)

(** The channel values. *)
Definition chans : list Z := seqZ 0 256.

(** [n + 0.5], the least value that rounds above [n]. *)
Definition half_above (n : Z) : float64 := (float64_of_Z n + 0x1p-1)%float.

Definition int_exact (n : Z) : bool :=
  let x := binary_normalize prec emax n 0 false in
  valid_binary x && (trunc_Z x =? n).

Definition half_exact (n : Z) : bool :=
  match Prim2SF (half_above n) with
  | S754_finite false my ey =>
      2 * (Z.pos my * 2 ^ (ey + 1074)) =? (2 * n + 1) * 2 ^ 1074
  | _ => false
  end.

Definition fmax (a b : float64) : float64 := if (a <? b)%float then b else a.

(** A float that is not below zero (or is not a number). *)
Definition sf_nonneg (x : spec_float) : bool :=
  match x with
  | S754_finite true _ _ | S754_infinity true => false
  | _ => true
  end.

(** For a coefficient [c]: the products [c * n] with the bounds [n + 0.5]. *)
Definition lum_tab (c : float64) : list (float64 * float64) :=
  map (fun n => ((c * float64_of_Z n)%float, half_above n)) chans.

(** The three tables, evaluated. *)
Definition tab_red : list (float64 * float64) := Eval vm_compute in lum_tab c_red.
Definition tab_green : list (float64 * float64) := Eval vm_compute in lum_tab c_green.
Definition tab_blue : list (float64 * float64) := Eval vm_compute in lum_tab c_blue.

Definition tab_nonneg (tab : list (float64 * float64)) : bool :=
  forallb (fun p => sf_nonneg (Prim2SF (fst p))) tab.

(** The grey value of three channel values, and the rounded sum before its
    conversion to [uint8]. *)
Definition luminosity (R G B : uint8) : float64 :=
  (c_red * float64_of_uint8 R + c_green * float64_of_uint8 G
   + c_blue * float64_of_uint8 B)%float.

Definition grey_of (R G B : uint8) : uint8 :=
  uint8_of_float64 (math.Round (luminosity R G B)).

Definition grey_fixed (n : Z) : bool :=
  let b := uint8_of_Z n in bool_decide (grey_of b b b = b).

(** The pixel that [toGreyscale] writes for a source colour. *)
Definition grey_color (c : color.Color) : color.RGBA :=
  match color.assert_RGBA (color.RGBAModel_Convert c) with
  | Some o => color.mkRGBA (grey_of (color.R o) (color.G o) (color.B o))
                (grey_of (color.R o) (color.G o) (color.B o))
                (grey_of (color.R o) (color.G o) (color.B o)) (color.A o)
  | None => color.mkRGBA x00 x00 x00 x00
  end.

(** The width and the height of a rectangle as exact differences. *)
Definition width (r : image.Rectangle) : Z := image.X (image.Max r) - image.X (image.Min r).
Definition height (r : image.Rectangle) : Z := image.Y (image.Max r) - image.Y (image.Min r).

(** The invariant of the destination buffer: four bytes per pixel, rows
    of [Stride] bytes. *)
Definition buffer_ok (p : image.RGBA.t) : Prop :=
  image.well_formed (image.RGBA.Rect p) /\
  image.RGBA.Stride p = 4 * width (image.RGBA.Rect p) /\
  Z.of_nat (length (image.RGBA.Pix p))
  = 4 * width (image.RGBA.Rect p) * height (image.RGBA.Rect p).

(** The coordinates that [toGreyscale] passes to [At]. *)
Definition sampled (src : image.Image) (x y : Z) : Prop :=
  0 <= x < image.X (image.Size (image.Bounds src)) /\
  0 <= y < image.Y (image.Size (image.Bounds src)).

(** A buffer of [w] by [h] pixels can be allocated: the length of a row,
    [4 * w], is below [2^64] (the first product of [mul3NonNeg]) and the
    length of the buffer, [4 * w * h], is at most [maxAlloc]. *)
Definition allocatable (w h : Z) : Prop :=
  0 <= w /\ 0 <= h /\ 4 * w < 2 ^ 64 /\ 4 * w * h <= maxAlloc.

(** The size of a source image is one that [image.NewRGBA] accepts. *)
Definition convertible (src : image.Image) : Prop :=
  allocatable (image.X (image.Size (image.Bounds src)))
              (image.Y (image.Size (image.Bounds src))).

(** ** Sample inputs *)

Definition rgba (r g b a : Z) : color.Color :=
  color.InRGBA (color.mkRGBA (uint8_of_Z r) (uint8_of_Z g) (uint8_of_Z b) (uint8_of_Z a)).

Definition nrgba (r g b a : Z) : color.Color :=
  color.InNRGBA (color.mkNRGBA (uint8_of_Z r) (uint8_of_Z g) (uint8_of_Z b) (uint8_of_Z a)).

Definition rect (x0 y0 x1 y1 : Z) : image.Rectangle :=
  image.mkRectangle (image.mkPoint x0 y0) (image.mkPoint x1 y1).

(** Two pixels in a row, the second one transparent with colour left in
    its channels. *)
Definition two_pixels : image.Image :=
  image.mkImage (rect 0 0 2 1)
    (fun x y => if x =? 0 then rgba 200 100 50 255 else rgba 10 20 30 0).

(** The same first pixel held as a non-premultiplied opaque colour. *)
Definition two_pixels_nrgba : image.Image :=
  image.mkImage (rect 0 0 2 1)
    (fun x y => if x =? 0 then nrgba 200 100 50 255 else rgba 10 20 30 0).

(** A grey image with some transparency. *)
Definition grey_image : image.Image :=
  image.mkImage (rect 0 0 2 2) (fun x y => rgba 77 77 77 128).

(** An image with no pixel. *)
Definition empty_image : image.Image :=
  image.mkImage (rect 0 0 0 0) (fun x y => rgba 0 0 0 0).

(** An image whose rectangle starts at (1, 1): red inside, transparent
    black outside. *)
Definition offset_image : image.Image :=
  image.mkImage (rect 1 1 3 2)
    (fun x y => if image.In (image.mkPoint x y) (rect 1 1 3 2)
                then rgba 255 0 0 255 else rgba 0 0 0 0).

(** An image of [2^31] by [2^31] pixels: its buffer would hold [2^64]
    bytes. *)
Definition huge_image : image.Image :=
  image.mkImage (rect 0 0 (2 ^ 31) (2 ^ 31)) (fun x y => rgba 0 0 0 255).

(** An image of [2^30] by [2^30] pixels: the length of its buffer, [2^62],
    is an [int], but above [maxAlloc]. *)
Definition large_image : image.Image :=
  image.mkImage (rect 0 0 (2 ^ 30) (2 ^ 30)) (fun x y => rgba 0 0 0 255).

(** A half-transparent and a fully transparent pixel, both held as
    non-premultiplied colours. *)
Definition translucent_pixels : image.Image :=
  image.mkImage (rect 0 0 2 1)
    (fun x y => if x =? 0 then nrgba 200 100 50 128 else nrgba 10 20 30 0).

(** Two images of one grey pixel at (1, 0), as an [*image.RGBA] and as an
    [*image.Gray] hold it: outside its rectangle the first gives
    [color.RGBA{}], the second [color.Gray{}]. *)
Definition offset_rgba : image.Image :=
  image.mkImage (rect 1 0 2 1)
    (fun x y => if image.In (image.mkPoint x y) (rect 1 0 2 1)
                then rgba 90 90 90 255 else rgba 0 0 0 0).

Definition offset_gray : image.Image :=
  image.mkImage (rect 1 0 2 1)
    (fun x y => if image.In (image.mkPoint x y) (rect 1 0 2 1)
                then color.InGray (uint8_of_Z 90) else color.InGray x00).

(** An image of [2^62] by 0 pixels: it has no pixel, but a row of it
    would hold [2^64] bytes. *)
Definition flat_image : image.Image :=
  image.mkImage (rect 0 0 (2 ^ 62) 0) (fun x y => rgba 0 0 0 255).

(** The conversion of [two_pixels]. *)
Definition two_pixels_grey : image.RGBA.t :=
  image.RGBA.mk (map uint8_of_Z [124; 124; 124; 255; 18; 18; 18; 0]) 8 (rect 0 0 2 1).

(** Zeroed buffers of one pixel and of two by two pixels. *)
Definition blank_pixel : image.RGBA.t :=
  image.RGBA.mk (replicate 4 x00) 4 (rect 0 0 1 1).

Definition blank_2x2 : image.RGBA.t :=
  image.RGBA.mk (replicate 16 x00) 8 (rect 0 0 2 2).

(** Serializers that write the name of their format. *)
Definition write_jpeg (w : list byte) (img : image.RGBA.t) (quality : Z)
    : list byte * option (list byte) := (w ++ str "jpeg", None).
Definition write_png (w : list byte) (img : image.RGBA.t)
    : list byte * option (list byte) := (w ++ str "png", None).
Definition write_gif (w : list byte) (img : image.RGBA.t)
    : list byte * option (list byte) := (w ++ str "gif", None).

(** ** The program [main] *)

(** The method [At] of [image.RGBA], through which an [image.RGBA] is an
    [image.Image].  [RGBAAt] cannot panic on a buffer made by [NewRGBA]
    (see [RGBAAt_total]); transparent black stands for that case. *)
Definition RGBA_At (p : image.RGBA.t) (x y : Z) : color.Color :=
  match image.RGBA.RGBAAt p x y with
  | Some c => color.InRGBA c
  | None => color.InRGBA (color.mkRGBA x00 x00 x00 x00)
  end.

Definition RGBA_Image (p : image.RGBA.t) : image.Image :=
  image.mkImage (image.RGBA.Bounds p) (RGBA_At p).

(** The [switch formatStr] of [main]: [None] is its [default] case. *)
Definition originalFormat_of (formatStr : list byte) : option imageFormat :=
  if decide (formatStr = str "jpeg") then Some FormatJPEG
  else if decide (formatStr = str "png") then Some FormatPNG
  else if decide (formatStr = str "gif") then Some FormatGIF
  else None.

(** What a run of the program does, in order: text on standard output;
    [log.Fatalf] (a message on standard error, then exit status 1, deferred
    calls skipped); the end of the process; the calls that reach the file
    system; the end of the process by a run-time panic that nothing
    recovers (exit status 2, after the deferred calls have run). *)
Inductive event : Type :=
| Stdout (text : list byte)
| Fatalf (message : list byte)
| Exit (code : Z)
| Open (path : list byte)
| Create (path : list byte)
| Encode (path : list byte) (format : imageFormat)
| Close (path : list byte)
| Panic.

Definition newline : list byte := [x0a].

Definition usage : list event :=
  [Stdout (str "Usage: go run main.go <input_image_filename>" ++ newline);
   Stdout (str "Example: go run main.go myimage.jpg" ++ newline);
   Exit 1].

(** [main], over the collaborators it calls: [os.Open], [image.Decode],
    [os.Create] (each gives its result or the message of its error) and the
    three serializers.  [Args] is [os.Args]. *)
Section Program.

Variable File : Type.
Variable os_Open : list byte -> File + list byte.
Variable image_Decode : File -> (image.Image * list byte) + list byte.
Variable os_Create : list byte -> File + list byte.
Variable jpeg_Encode : File -> image.RGBA.t -> Z -> File * option (list byte).
Variable png_Encode : File -> image.RGBA.t -> File * option (list byte).
Variable gif_Encode : File -> image.RGBA.t -> File * option (list byte).

Definition main (Args : list (list byte)) : list event :=
  match Args with
  | _ :: inputFilename :: _ =>
    Open inputFilename ::
    match os_Open inputFilename with
    | inr err =>
        [Fatalf (str "Error opening input file " ++ inputFilename ++ str ": " ++ err)]
    | inl inputFile =>
      match image_Decode inputFile with
      | inr err =>
          [Fatalf (str "Error decoding image " ++ inputFilename ++ str ": " ++ err)]
      | inl (img, formatStr) =>
        match originalFormat_of formatStr with
        | None =>
            [Fatalf (str "Unsupported input image format: " ++ formatStr
                     ++ str ". Supported formats are JPEG, PNG, GIF.")]
        | Some originalFormat =>
          Stdout (str "Converting " ++ inputFilename ++ str " (format: "
                  ++ originalFormat ++ str ") to greyscale (Luminosity Method)..."
                  ++ newline) ::
          match toGreyscale img with
          | None => [Close inputFilename; Panic]
          | Some greyImg =>
            Stdout (str "Conversion complete." ++ newline) ::
            Create (outputFilename inputFilename) ::
            match os_Create (outputFilename inputFilename) with
            | inr err =>
                [Fatalf (str "Error creating output file "
                         ++ outputFilename inputFilename ++ str ": " ++ err)]
            | inl greyscaleOutputFile =>
              Encode (outputFilename inputFilename) originalFormat ::
              match snd (encodeImage File image.RGBA.t jpeg_Encode png_Encode gif_Encode
                           greyscaleOutputFile greyImg originalFormat) with
              | Some err =>
                  [Fatalf (str "Error encoding greyscale image to "
                           ++ outputFilename inputFilename ++ str " (format: "
                           ++ originalFormat ++ str "): " ++ err)]
              | None =>
                  [Stdout (str "Greyscale image saved as "
                           ++ outputFilename inputFilename ++ newline);
                   Close (outputFilename inputFilename);
                   Close inputFilename;
                   Exit 0]
              end
            end
          end
        end
      end
    end
  | _ => usage
  end.

(** Every step of a run succeeds: there is an argument, the file opens and
    decodes to a supported format, the conversion returns, the output file
    is created and the serializer returns no error. *)
Definition all_succeed (Args : list (list byte)) : Prop :=
  exists name inputFile img formatStr format grey out,
    Args !! 1%nat = Some name /\
    os_Open name = inl inputFile /\
    image_Decode inputFile = inl (img, formatStr) /\
    originalFormat_of formatStr = Some format /\
    toGreyscale img = Some grey /\
    os_Create (outputFilename name) = inl out /\
    snd (encodeImage File image.RGBA.t jpeg_Encode png_Encode gif_Encode
           out grey format) = None.

End Program.

(** The exit status of a run: that of its last event. *)
Definition exit_status (run : list event) : option Z :=
  match last run with
  | Some (Exit code) => Some code
  | Some (Fatalf _) => Some 1
  | Some Panic => Some 2
  | _ => None
  end.

(** A file system with the single file "in.png", which decodes to
    [two_pixels]; files are byte strings. *)
Definition demo_Open (path : list byte) : list byte + list byte :=
  if decide (path = str "in.png") then inl (str "PNG") else inr (str "no such file").
Definition demo_Decode (f : list byte) : (image.Image * list byte) + list byte :=
  inl (two_pixels, str "png").
Definition demo_Create (path : list byte) : list byte + list byte := inl [].

(** A decoder that gives [huge_image]. *)
Definition demo_Decode_huge (f : list byte) : (image.Image * list byte) + list byte :=
  inl (huge_image, str "png").

(** ** Tables for the lower bound of the luminosity sum *)

(** [n - 0.5], the least value that rounds to [n]. *)
Definition half_below (n : Z) : float64 := (float64_of_Z n - 0x1p-1)%float.

Definition below_exact (n : Z) : bool :=
  (n =? 0) ||
  match Prim2SF (half_below n) with
  | S754_finite false my ey =>
      2 * (Z.pos my * 2 ^ (ey + 1074)) =? (2 * n - 1) * 2 ^ 1074
  | _ => false
  end.

Definition fmin (a b : float64) : float64 := if (a <? b)%float then a else b.

(** For a coefficient [c]: the products [c * n] with the bounds [n - 0.5]. *)
Definition low_tab (c : float64) : list (float64 * float64) :=
  map (fun n => ((c * float64_of_Z n)%float, half_below n)) chans.

Definition low_red : list (float64 * float64) := Eval vm_compute in low_tab c_red.
Definition low_green : list (float64 * float64) := Eval vm_compute in low_tab c_green.
Definition low_blue : list (float64 * float64) := Eval vm_compute in low_tab c_blue.

(** * Proofs *)

(** ** Machine types *)

Lemma Z_of_uint8_range b : 0 <= Z_of_uint8 b < 256.
Proof. unfold Z_of_uint8. pose proof (Byte.to_N_bounded b). lia. Qed.

Lemma uint8_of_Z_of_uint8 b : uint8_of_Z (Z_of_uint8 b) = b.
Proof.
  unfold uint8_of_Z. rewrite Z.mod_small by apply Z_of_uint8_range.
  unfold Z_of_uint8. rewrite N2Z.id, Byte.of_to_N. reflexivity.
Qed.

Lemma Z_of_uint8_of_Z z : Z_of_uint8 (uint8_of_Z z) = z mod 256.
Proof.
  unfold uint8_of_Z, Z_of_uint8.
  pose proof (Z.mod_pos_bound z 256 ltac:(lia)) as Hz.
  destruct (Byte.of_N (Z.to_N (z mod 256))) eqn:E.
  - apply Byte.to_of_N in E. rewrite E. lia.
  - apply Byte.of_N_None_iff in E. lia.
Qed.

Lemma Z_of_uint8_inj a b : Z_of_uint8 a = Z_of_uint8 b -> a = b.
Proof.
  intros H. rewrite <- (uint8_of_Z_of_uint8 a), <- (uint8_of_Z_of_uint8 b).
  now rewrite H.
Qed.

Lemma int_wrap_range z : is_int (int_wrap z).
Proof.
  unfold is_int, int_wrap.
  pose proof (Z.mod_pos_bound (z + 2 ^ 63) (2 ^ 64) ltac:(lia)). lia.
Qed.

(** The wrap-around of a number below [2^64] that is not negative. *)
Lemma int_wrap_cases z :
  0 <= z < 2 ^ 64 ->
  (z < 2 ^ 63 /\ int_wrap z = z) \/ (2 ^ 63 <= z /\ int_wrap z = z - 2 ^ 64).
Proof.
  intros Hz. unfold int_wrap. destruct (Z.lt_ge_cases z (2 ^ 63)) as [H|H].
  - left. split; [exact H|]. rewrite Z.mod_small by lia. lia.
  - right. split; [exact H|].
    replace (z + 2 ^ 63) with (z - 2 ^ 63 + 1 * 2 ^ 64) by lia.
    rewrite Z.mod_add by lia. rewrite Z.mod_small by lia. lia.
Qed.

Lemma int_wrap_small z : is_int z -> int_wrap z = z.
Proof. unfold is_int, int_wrap. intros H. rewrite Z.mod_small by lia. lia. Qed.

Lemma elem_of_chans n : n ∈ chans <-> 0 <= n < 256.
Proof. unfold chans. rewrite elem_of_seqZ. lia. Qed.

(** ** Binary64 facts *)

Section Float64.

Lemma digits2_pos_bounds (m : positive) :
  2 ^ (Z.pos (digits2_pos m) - 1) <= Z.pos m < 2 ^ Z.pos (digits2_pos m).
Proof.
  induction m as [m IH|m IH|]; simpl digits2_pos.
  - rewrite Pos2Z.inj_succ.
    replace (Z.succ (Z.pos (digits2_pos m)) - 1)
      with (Z.succ (Z.pos (digits2_pos m) - 1)) by lia.
    rewrite !Z.pow_succ_r by lia. lia.
  - rewrite Pos2Z.inj_succ.
    replace (Z.succ (Z.pos (digits2_pos m)) - 1)
      with (Z.succ (Z.pos (digits2_pos m) - 1)) by lia.
    rewrite !Z.pow_succ_r by lia. lia.
  - simpl. lia.
Qed.

(** A valid finite number has at most 53 significant bits, and exactly 53
    above the least exponent. *)
Lemma valid_finite_inv s m e :
  valid_binary (S754_finite s m e) = true ->
  -1074 <= e /\ Z.pos m < 2 ^ 53 /\ (-1074 < e -> 2 ^ 52 <= Z.pos m).
Proof.
  unfold valid_binary, bounded, canonical_mantissa, fexp.
  rewrite andb_true_iff, Z.eqb_eq. intros [Hc _].
  pose proof (digits2_pos_bounds m) as [Hlo Hhi].
  set (d := Z.pos (digits2_pos m)) in *.
  assert (Hd : d <= 53) by (unfold SpecFloat.emin, prec, emax in *; lia).
  split; [unfold SpecFloat.emin, prec, emax in *; lia|]. split.
  - eapply Z.lt_le_trans; [exact Hhi|]. apply Z.pow_le_mono_r; lia.
  - intros He. assert (d = 53) by (unfold SpecFloat.emin, prec, emax in *; lia).
    replace (d - 1) with 52 in Hlo by lia. exact Hlo.
Qed.

(** The order of two positive finite numbers is the order of their values. *)
Lemma SFltb_finite_scaled m e m' e' :
  valid_binary (S754_finite false m e) = true ->
  valid_binary (S754_finite false m' e') = true ->
  SFltb (S754_finite false m e) (S754_finite false m' e') = true ->
  Z.pos m * 2 ^ (e + 1074) < Z.pos m' * 2 ^ (e' + 1074).
Proof.
  intros Hv Hv' Hlt.
  apply valid_finite_inv in Hv as (He & Hm & _).
  apply valid_finite_inv in Hv' as (He' & _ & Hm').
  unfold SFltb, SFcompare in Hlt.
  destruct (Z.compare_spec e e') as [Heq|Hee|Hee]; try discriminate.
  - subst e'. destruct (Pos.compare_cont Eq m m') eqn:Hc; try discriminate.
    change (Pos.compare_cont Eq m m') with (Pos.compare m m') in Hc.
    rewrite Pos.compare_lt_iff in Hc.
    apply Z.mul_lt_mono_pos_r; [apply Z.pow_pos_nonneg; lia | lia].
  - specialize (Hm' ltac:(lia)).
    replace (e' + 1074) with ((e + 1074) + (1 + (e' - e - 1))) by lia.
    rewrite (Z.pow_add_r 2 (e + 1074)) by lia.
    rewrite (Z.pow_add_r 2 1) by lia.
    assert (0 < 2 ^ (e + 1074)) by (apply Z.pow_pos_nonneg; lia).
    assert (1 <= 2 ^ (e' - e - 1)) by (apply (Z.pow_le_mono_r 2 0); lia).
    change (2 ^ 1) with 2.
    set (P := 2 ^ (e + 1074)) in *. set (Q := 2 ^ (e' - e - 1)) in *.
    change (2 ^ 53) with (2 * 2 ^ 52) in Hm.
    apply Z.lt_le_trans with (2 * 2 ^ 52 * P); [nia|].
    apply Z.le_trans with (Z.pos m' * (P * 2)); [nia|].
    assert (0 <= Z.pos m' * (P * 2)) by nia. nia.
Qed.

(** The integers 0..255 are binary64 numbers. *)
Lemma int_exact_all : forallb int_exact chans = true.
Proof. vm_compute. reflexivity. Qed.

Lemma int_of_normalize n :
  0 <= n < 256 ->
  int_of_float64 (SF2Prim (binary_normalize prec emax n 0 false)) = n.
Proof.
  intros Hn. pose proof int_exact_all as H.
  rewrite forallb_forall in H. specialize (H n).
  rewrite <- list_elem_of_In, elem_of_chans in H. specialize (H Hn).
  unfold int_exact in H. apply andb_true_iff in H as [Hv Ht].
  unfold int_of_float64. rewrite Prim2SF_SF2Prim by exact Hv.
  apply Z.eqb_eq, Ht.
Qed.

(** [math.Round] on a number in [0, k + 0.5): the result is the integer
    nearest to the argument, halves rounded up, and it is at most [k]. *)
Lemma Round_nearest (s y : float64) (k : Z) my ey :
  0 <= k < 256 ->
  Prim2SF y = S754_finite false my ey ->
  2 * (Z.pos my * 2 ^ (ey + 1074)) = (2 * k + 1) * 2 ^ 1074 ->
  sf_nonneg (Prim2SF s) = true ->
  (s <? y)%float = true ->
  0 <= int_of_float64 (math.Round s) <= k /\
  (2 * int_of_float64 (math.Round s) - 1) * 2 ^ 1074 <= 2 * float64_scaled s
    < (2 * int_of_float64 (math.Round s) + 1) * 2 ^ 1074.
Proof.
  intros Hk Hy Hyv Hge Hlt.
  rewrite ltb_spec, Hy in Hlt.
  pose proof (Prim2SF_valid y) as Hvy. rewrite Hy in Hvy.
  pose proof (Prim2SF_valid s) as Hvs.
  assert (H1074 : 0 < 2 ^ 1074) by (apply Z.pow_pos_nonneg; lia).
  unfold math.Round, float64_scaled.
  destruct (Prim2SF s) as [sg|sg| |sg m e] eqn:Hs; try discriminate.
  - simpl math.round_half_away. unfold int_of_float64.
    rewrite Prim2SF_SF2Prim by reflexivity. simpl. lia.
  - destruct sg; discriminate.
  - destruct sg; [discriminate|].
    pose proof (SFltb_finite_scaled _ _ _ _ Hvs Hvy Hlt) as Hval.
    pose proof (valid_finite_inv _ _ _ Hvs) as (He & _ & _).
    unfold math.round_half_away, SFscaled, cond_Zopp.
    destruct (Z.leb_spec 0 e) as [He0|He0].
    + unfold int_of_float64. rewrite Prim2SF_SF2Prim by exact Hvs.
      unfold trunc_Z, cond_Zopp. destruct (Z.leb_spec 0 e); [|lia].
      rewrite Z.pow_add_r in * by lia.
      assert (0 < 2 ^ e) by (apply Z.pow_pos_nonneg; lia).
      nia.
    + set (d := 2 ^ (- e)).
      assert (Hd : 0 < d) by (apply Z.pow_pos_nonneg; lia).
      assert (Hsc : 2 ^ (e + 1074) * d = 2 ^ 1074).
      { unfold d. rewrite <- Z.pow_add_r by lia. f_equal. lia. }
      assert (Hp : 0 < 2 ^ (e + 1074)) by (apply Z.pow_pos_nonneg; lia).
      set (P := 2 ^ (e + 1074)) in *.
      assert (H2m : 2 * Z.pos m < (2 * k + 1) * d).
      { apply (Z.mul_lt_mono_pos_r P); [exact Hp|].
        replace ((2 * k + 1) * d * P) with ((2 * k + 1) * 2 ^ 1074)
          by (rewrite <- Hsc; ring).
        lia. }
      pose proof (Z.div_mod (Z.pos m) d ltac:(lia)) as Hdm.
      pose proof (Z.mod_pos_bound (Z.pos m) d Hd) as Hr.
      set (q := Z.pos m / d) in *. set (r := Z.pos m mod d) in *.
      assert (Hq : 0 <= q) by (apply Z.div_pos; lia).
      set (n := if d <=? 2 * r then q + 1 else q).
      assert (Hn : 0 <= n <= k /\ (2 * n - 1) * d <= 2 * Z.pos m < (2 * n + 1) * d).
      { unfold n. destruct (Z.leb_spec d (2 * r)); nia. }
      destruct Hn as [Hn Hnear].
      rewrite int_of_normalize by lia. split; [exact Hn|].
      rewrite <- Hsc.
      replace (2 * (Z.pos m * P)) with (2 * Z.pos m * P) by ring.
      replace ((2 * n - 1) * (P * d)) with ((2 * n - 1) * d * P) by ring.
      replace ((2 * n + 1) * (P * d)) with ((2 * n + 1) * d * P) by ring.
      split; [apply Z.mul_le_mono_nonneg_r | apply Z.mul_lt_mono_pos_r]; lia.
Qed.

End Float64.

(** ** The luminosity sum over all channel values *)

Section Luminosity.

Lemma half_exact_all : forallb half_exact chans = true.
Proof. vm_compute. reflexivity. Qed.

(** Every sum of three products is below [m + 0.5] for one of its three
    channel values [m]: checked on all 256^3 triples. *)
Lemma lum_check_ok :
  forallb (fun R : float64 * float64 =>
    forallb (fun G : float64 * float64 =>
      let s1 := (fst R + fst G)%float in
      let b1 := fmax (snd R) (snd G) in
      forallb (fun B : float64 * float64 =>
        let s := (s1 + fst B)%float in
        (s <? b1)%float || (s <? snd B)%float)
      tab_blue) tab_green) tab_red = true.
Proof. vm_compute. reflexivity. Qed.

Lemma tabs_eq :
  tab_red = lum_tab c_red /\ tab_green = lum_tab c_green /\ tab_blue = lum_tab c_blue.
Proof. repeat split; vm_compute; reflexivity. Qed.

Lemma tabs_nonneg :
  tab_nonneg tab_red && tab_nonneg tab_green && tab_nonneg tab_blue = true.
Proof. vm_compute. reflexivity. Qed.

Lemma forallb_elim {A} (f : A -> bool) (l : list A) (x : A) :
  forallb f l = true -> List.In x l -> f x = true.
Proof. intros H. exact (proj1 (forallb_forall f l) H x). Qed.

Lemma lum_tab_elem c (b : uint8) :
  List.In ((c * float64_of_uint8 b)%float, half_above (Z_of_uint8 b)) (lum_tab c).
Proof.
  unfold lum_tab. apply (in_map (fun n => ((c * float64_of_Z n)%float, half_above n))).
  apply list_elem_of_In, elem_of_chans, Z_of_uint8_range.
Qed.

Lemma half_above_exact n :
  0 <= n < 256 ->
  exists my ey, Prim2SF (half_above n) = S754_finite false my ey /\
    2 * (Z.pos my * 2 ^ (ey + 1074)) = (2 * n + 1) * 2 ^ 1074.
Proof.
  intros Hn. pose proof (forallb_elim _ _ n half_exact_all) as H.
  rewrite <- list_elem_of_In, elem_of_chans in H. specialize (H Hn).
  unfold half_exact in H.
  destruct (Prim2SF (half_above n)) as [| | |[] my ey]; try discriminate.
  exists my, ey. split; [reflexivity | apply Z.eqb_eq, H].
Qed.

(** The sum of two floats that are not below zero is not below zero. *)
Lemma SFadd_nonneg (x y : spec_float) :
  sf_nonneg x = true -> sf_nonneg y = true -> sf_nonneg (SF64add x y) = true.
Proof.
  unfold SF64add, SFadd.
  destruct x as [sx|sx| |sx mx ex], y as [sy|sy| |sy my ey];
    try destruct sx; try destruct sy; simpl sf_nonneg; intros Hx Hy;
    try discriminate; try reflexivity.
  unfold cond_Zopp. change (Z.pos ?a + Z.pos ?b) with (Z.pos (a + b)).
  unfold binary_normalize, binary_round.
  destruct (shl_align _ _ _) as [mz ez]. unfold binary_round_aux.
  destruct (shr_fexp _ _ _ _ _) as [mrs' e'].
  destruct (shr_fexp _ _ _ _ _) as [mrs'' e''].
  destruct (shr_m mrs''); [reflexivity| |reflexivity].
  destruct (e'' <=? emax - prec); reflexivity.
Qed.

Lemma lum_check_sound (R G B : float64 * float64) :
  List.In R tab_red -> List.In G tab_green -> List.In B tab_blue ->
  sf_nonneg (Prim2SF (fst R + fst G + fst B)) = true /\
  ((fst R + fst G + fst B <? fmax (snd R) (snd G))%float = true \/
   (fst R + fst G + fst B <? snd B)%float = true).
Proof.
  intros HR HG HB. split.
  - pose proof tabs_nonneg as H. rewrite !andb_true_iff in H.
    destruct H as [[Hr Hg] Hb]. unfold tab_nonneg in Hr, Hg, Hb.
    apply (forallb_elim _ _ R) in Hr; [|exact HR].
    apply (forallb_elim _ _ G) in Hg; [|exact HG].
    apply (forallb_elim _ _ B) in Hb; [|exact HB].
    rewrite !add_spec. auto using SFadd_nonneg.
  - pose proof lum_check_ok as H.
    apply (forallb_elim _ _ R) in H; [|exact HR].
    apply (forallb_elim _ _ G) in H; [|exact HG].
    apply (forallb_elim _ _ B) in H; [|exact HB].
    apply orb_true_iff in H. exact H.
Qed.

(** The rounded sum is the integer nearest to the sum, it is not negative
    and not above the greatest of the three channels. *)
Lemma luminosity_rounded (R G B : uint8) :
  0 <= int_of_float64 (math.Round (luminosity R G B))
    <= Z.max (Z_of_uint8 R) (Z.max (Z_of_uint8 G) (Z_of_uint8 B)) /\
  (2 * int_of_float64 (math.Round (luminosity R G B)) - 1) * 2 ^ 1074
    <= 2 * float64_scaled (luminosity R G B)
    < (2 * int_of_float64 (math.Round (luminosity R G B)) + 1) * 2 ^ 1074.
Proof.
  destruct tabs_eq as (Er & Eg & Eb).
  pose proof (lum_tab_elem c_red R) as HR. rewrite <- Er in HR.
  pose proof (lum_tab_elem c_green G) as HG. rewrite <- Eg in HG.
  pose proof (lum_tab_elem c_blue B) as HB. rewrite <- Eb in HB.
  destruct (lum_check_sound _ _ _ HR HG HB) as [Hge Hlt]. clear HR HG HB Er Eg Eb.
  change (sf_nonneg (Prim2SF (luminosity R G B)) = true) in Hge.
  change ((luminosity R G B <?
             fmax (half_above (Z_of_uint8 R)) (half_above (Z_of_uint8 G)))%float = true \/
          (luminosity R G B <? half_above (Z_of_uint8 B))%float = true) in Hlt.
  assert (Hsel : exists k, (k = Z_of_uint8 R \/ k = Z_of_uint8 G \/ k = Z_of_uint8 B) /\
            (luminosity R G B <? half_above k)%float = true).
  { destruct Hlt as [Hlt|Hlt]; [|eauto 6]. unfold fmax in Hlt.
    destruct (half_above (Z_of_uint8 R) <? half_above (Z_of_uint8 G))%float; eauto 6. }
  destruct Hsel as (k & Hk & Hltk).
  assert (Hkr : 0 <= k < 256)
    by (destruct Hk as [->|[->| ->]]; apply Z_of_uint8_range).
  destruct (half_above_exact k Hkr) as (my & ey & Hy & Hyv).
  destruct (Round_nearest _ _ k my ey Hkr Hy Hyv Hge Hltk) as [Hn Hnear].
  split; [lia | exact Hnear].
Qed.

(** The conversion to [uint8] of the rounded sum is exact. *)
Lemma grey_of_exact (R G B : uint8) :
  Z_of_uint8 (grey_of R G B) = int_of_float64 (math.Round (luminosity R G B)).
Proof.
  unfold grey_of, uint8_of_float64. cbv zeta.
  pose proof (luminosity_rounded R G B) as [Hn _].
  pose proof (Z_of_uint8_range R). pose proof (Z_of_uint8_range G).
  pose proof (Z_of_uint8_range B).
  set (t := int_of_float64 (math.Round (luminosity R G B))) in *.
  destruct (Z.leb_spec (- 2 ^ 31) t); [|lia].
  destruct (Z.ltb_spec t (2 ^ 31)); [|lia]. simpl.
  rewrite Z_of_uint8_of_Z. apply Z.mod_small. lia.
Qed.

Lemma grey_fixed_all : forallb grey_fixed chans = true.
Proof. vm_compute. reflexivity. Qed.

(** Equal channels are a fixed point of the luminosity formula. *)
Lemma grey_of_diag (g : uint8) : grey_of g g g = g.
Proof.
  pose proof (forallb_elim _ _ (Z_of_uint8 g) grey_fixed_all) as H.
  rewrite <- list_elem_of_In, elem_of_chans in H.
  specialize (H (Z_of_uint8_range g)). unfold grey_fixed in H.
  rewrite uint8_of_Z_of_uint8 in H. now apply bool_decide_eq_true in H.
Qed.

End Luminosity.

(** ** The destination buffer *)

Section Buffer.

Implicit Types (p : image.RGBA.t) (x y : Z).

Lemma In_spec x y r :
  image.In (image.mkPoint x y) r = true <->
  image.X (image.Min r) <= x < image.X (image.Max r) /\
  image.Y (image.Min r) <= y < image.Y (image.Max r).
Proof.
  unfold image.In. cbn [image.X image.Y].
  rewrite !andb_true_iff, !Z.leb_le, !Z.ltb_lt. lia.
Qed.

(** Four bytes written from index [i] on, read back. *)
Lemma quad_lookup (l : list uint8) (i : nat) (a b c d : uint8) :
  (i + 4 <= length l)%nat ->
  let l' := <[(i + 3)%nat := d]> (<[(i + 2)%nat := c]>
              (<[(i + 1)%nat := b]> (<[i := a]> l))) in
  l' !! i = Some a /\ l' !! (i + 1)%nat = Some b /\
  l' !! (i + 2)%nat = Some c /\ l' !! (i + 3)%nat = Some d /\
  forall j, (j < i \/ i + 4 <= j)%nat -> l' !! j = l !! j.
Proof.
  intros Hlen l'. unfold l'. repeat split.
  - rewrite !list_lookup_insert_ne by lia.
    apply list_lookup_insert_eq. lia.
  - rewrite !list_lookup_insert_ne by lia.
    apply list_lookup_insert_eq. rewrite !length_insert. lia.
  - rewrite !list_lookup_insert_ne by lia.
    apply list_lookup_insert_eq. rewrite !length_insert. lia.
  - apply list_lookup_insert_eq. rewrite !length_insert. lia.
  - intros j Hj. rewrite !list_lookup_insert_ne by lia. reflexivity.
Qed.

Lemma slice4_lookup p i :
  0 <= i -> i + 4 <= Z.of_nat (length (image.RGBA.Pix p)) ->
  exists s0 s1 s2 s3,
    image.RGBA.Pix p !! Z.to_nat i = Some s0 /\
    image.RGBA.Pix p !! (Z.to_nat i + 1)%nat = Some s1 /\
    image.RGBA.Pix p !! (Z.to_nat i + 2)%nat = Some s2 /\
    image.RGBA.Pix p !! (Z.to_nat i + 3)%nat = Some s3 /\
    image.RGBA.slice4 p i = Some (s0, s1, s2, s3).
Proof.
  intros H0 Hlen. unfold image.RGBA.slice4.
  replace (Z.to_nat (i + 1)) with (Z.to_nat i + 1)%nat by lia.
  replace (Z.to_nat (i + 2)) with (Z.to_nat i + 2)%nat by lia.
  replace (Z.to_nat (i + 3)) with (Z.to_nat i + 3)%nat by lia.
  destruct (lookup_lt_is_Some_2 (image.RGBA.Pix p) (Z.to_nat i)) as [s0 E0]; [lia|].
  destruct (lookup_lt_is_Some_2 (image.RGBA.Pix p) (Z.to_nat i + 1)) as [s1 E1]; [lia|].
  destruct (lookup_lt_is_Some_2 (image.RGBA.Pix p) (Z.to_nat i + 2)) as [s2 E2]; [lia|].
  destruct (lookup_lt_is_Some_2 (image.RGBA.Pix p) (Z.to_nat i + 3)) as [s3 E3]; [lia|].
  exists s0, s1, s2, s3. rewrite E0, E1, E2, E3.
  destruct (Z.leb_spec 0 i); [|lia].
  destruct (Z.leb_spec (i + 4) (Z.of_nat (length (image.RGBA.Pix p)))); [|lia].
  simpl. auto.
Qed.

(** The four bytes of a pixel of the rectangle lie inside the buffer. *)
Lemma PixOffset_bounds p x y :
  buffer_ok p ->
  image.In (image.mkPoint x y) (image.RGBA.Rect p) = true ->
  0 <= image.RGBA.PixOffset p x y /\
  image.RGBA.PixOffset p x y + 4 <= Z.of_nat (length (image.RGBA.Pix p)).
Proof.
  intros (Hwf & Hs & Hl) Hin. apply In_spec in Hin.
  unfold image.RGBA.PixOffset. rewrite Hs, Hl.
  unfold width, height in *. nia.
Qed.

(** Two pixels of the rectangle do not share a byte. *)
Lemma PixOffset_apart p x y x' y' :
  buffer_ok p ->
  image.In (image.mkPoint x y) (image.RGBA.Rect p) = true ->
  image.In (image.mkPoint x' y') (image.RGBA.Rect p) = true ->
  ~ (x' = x /\ y' = y) ->
  image.RGBA.PixOffset p x' y' + 4 <= image.RGBA.PixOffset p x y \/
  image.RGBA.PixOffset p x y + 4 <= image.RGBA.PixOffset p x' y'.
Proof.
  intros (Hwf & Hs & Hl) Hin Hin' Hne.
  apply In_spec in Hin. apply In_spec in Hin'.
  unfold image.RGBA.PixOffset. rewrite Hs.
  unfold width, height in *.
  destruct (Z.lt_trichotomy y y') as [Hy|[Hy|Hy]]; [right; nia | | left; nia].
  subst y'. assert (x <> x') by lia.
  destruct (Z.lt_trichotomy x x') as [Hx|[Hx|Hx]]; [right; nia | lia | left; nia].
Qed.

Lemma RGBAAt_total p x y :
  buffer_ok p -> exists c, image.RGBA.RGBAAt p x y = Some c.
Proof.
  intros Hok. unfold image.RGBA.RGBAAt.
  destruct (image.In (image.mkPoint x y) (image.RGBA.Rect p)) eqn:Hin; simpl; [|eauto].
  destruct (PixOffset_bounds p x y Hok Hin) as [H0 H4].
  destruct (slice4_lookup p _ H0 H4) as (s0 & s1 & s2 & s3 & _ & _ & _ & _ & ->).
  simpl. eauto.
Qed.

(** [Set] of an [RGBA] colour: it does not panic, it keeps the shape of the
    buffer, and it changes the pixel it names, when in the rectangle, and
    no other. *)
Lemma Set_spec p x y (c : color.RGBA) :
  buffer_ok p ->
  exists p',
    image.RGBA.Set_ p x y (color.InRGBA c) = Some p' /\
    buffer_ok p' /\
    image.RGBA.Rect p' = image.RGBA.Rect p /\
    forall x' y',
      image.RGBA.RGBAAt p' x' y'
      = if image.In (image.mkPoint x y) (image.RGBA.Rect p)
           && bool_decide (x' = x /\ y' = y)
        then Some c else image.RGBA.RGBAAt p x' y'.
Proof.
  intros Hok. unfold image.RGBA.Set_.
  destruct (image.In (image.mkPoint x y) (image.RGBA.Rect p)) eqn:Hin; simpl.
  2:{ exists p. auto. }
  destruct (PixOffset_bounds p x y Hok Hin) as [H0 H4].
  destruct (slice4_lookup p _ H0 H4) as (s0 & s1 & s2 & s3 & _ & _ & _ & _ & Hsl).
  rewrite Hsl. simpl.
  set (i := image.RGBA.PixOffset p x y) in *.
  replace (Z.to_nat (i + 1)) with (Z.to_nat i + 1)%nat by lia.
  replace (Z.to_nat (i + 2)) with (Z.to_nat i + 2)%nat by lia.
  replace (Z.to_nat (i + 3)) with (Z.to_nat i + 3)%nat by lia.
  set (pix' := <[(Z.to_nat i + 3)%nat := color.A c]> _).
  assert (Hlen : length pix' = length (image.RGBA.Pix p))
    by (unfold pix'; rewrite !length_insert; reflexivity).
  set (p' := image.RGBA.mk pix' (image.RGBA.Stride p) (image.RGBA.Rect p)).
  assert (Hok' : buffer_ok p').
  { destruct Hok as (Hwf & Hs & Hl). unfold buffer_ok, p'. simpl.
    rewrite Hlen. auto. }
  exists p'. split; [reflexivity|]. split; [exact Hok'|]. split; [reflexivity|].
  intros x' y'. unfold image.RGBA.RGBAAt.
  change (image.RGBA.Rect p') with (image.RGBA.Rect p).
  destruct (image.In (image.mkPoint x' y') (image.RGBA.Rect p)) eqn:Hin'; simpl.
  2:{ case_bool_decide as Hxy; [|reflexivity].
      destruct Hxy as [-> ->]. congruence. }
  change (image.RGBA.PixOffset p' x' y') with (image.RGBA.PixOffset p x' y').
  destruct (PixOffset_bounds p x' y' Hok Hin') as [H0' H4'].
  set (j := image.RGBA.PixOffset p x' y') in *.
  assert (H4'' : j + 4 <= Z.of_nat (length (image.RGBA.Pix p'))) by (simpl; lia).
  destruct (slice4_lookup p' j H0' H4'') as (t0 & t1 & t2 & t3 & E0 & E1 & E2 & E3 & ->).
  destruct (slice4_lookup p j H0' H4') as (u0 & u1 & u2 & u3 & F0 & F1 & F2 & F3 & ->).
  simpl in E0, E1, E2, E3.
  destruct (quad_lookup (image.RGBA.Pix p) (Z.to_nat i) (color.R c) (color.G c)
              (color.B c) (color.A c) ltac:(lia)) as (Q0 & Q1 & Q2 & Q3 & Qout).
  fold pix' in Q0, Q1, Q2, Q3, Qout.
  case_bool_decide as Hxy.
  - destruct Hxy as [-> ->]. fold i in j. subst j.
    destruct c. simpl in *. congruence.
  - pose proof (PixOffset_apart p x y x' y' Hok Hin Hin' Hxy) as Hap.
    fold i j in Hap.
    rewrite Qout in E0, E1, E2, E3 by lia. congruence.
Qed.

Lemma Rect_well_formed x0 y0 x1 y1 : image.well_formed (image.Rect x0 y0 x1 y1).
Proof.
  unfold image.Rect, image.well_formed.
  destruct (Z.ltb_spec x1 x0), (Z.ltb_spec y1 y0); simpl; lia.
Qed.

Lemma Rect_origin w h :
  0 <= w -> 0 <= h ->
  image.Rect 0 0 w h = image.mkRectangle (image.mkPoint 0 0) (image.mkPoint w h).
Proof.
  intros Hw Hh. unfold image.Rect.
  destruct (Z.ltb_spec w 0), (Z.ltb_spec h 0); try lia. reflexivity.
Qed.

Lemma Rect_int_coordinates w h :
  is_int w -> is_int h -> image.int_coordinates (image.Rect 0 0 w h).
Proof.
  unfold image.int_coordinates, image.Rect, is_int. intros Hw Hh.
  destruct (Z.ltb_spec w 0), (Z.ltb_spec h 0); simpl; lia.
Qed.

(** The size of a rectangle is a pair of [int]s; it is the exact width and
    height of a well-formed rectangle of [int]s when neither is negative. *)
Lemma Size_int r :
  is_int (image.X (image.Size r)) /\ is_int (image.Y (image.Size r)).
Proof. split; apply int_wrap_range. Qed.

Lemma Size_exact r :
  image.well_formed r -> image.int_coordinates r ->
  0 <= image.X (image.Size r) -> 0 <= image.Y (image.Size r) ->
  image.X (image.Size r) = width r /\ image.Y (image.Size r) = height r.
Proof.
  unfold image.well_formed, image.int_coordinates, is_int, image.Size, image.Dx, image.Dy.
  cbn [image.X image.Y]. fold (width r) (height r). unfold width, height.
  intros [Hx Hy] (H1 & H2 & H3 & H4) Hw Hh.
  destruct (int_wrap_cases (image.X (image.Max r) - image.X (image.Min r)) ltac:(lia))
    as [[_ Ew]|[_ Ew]];
  destruct (int_wrap_cases (image.Y (image.Max r) - image.Y (image.Min r)) ltac:(lia))
    as [[_ Eh]|[_ Eh]]; lia.
Qed.

(** [mul3NonNeg] is the product when no factor is negative, the first
    product is below [2^64] and the whole product is an [int]. *)
Lemma mul3NonNeg_spec x y z :
  image.mul3NonNeg x y z
  = if bool_decide (0 <= x /\ 0 <= y /\ 0 <= z /\ x * y < 2 ^ 64 /\ x * y * z < 2 ^ 63)
    then x * y * z else -1.
Proof.
  unfold image.mul3NonNeg.
  destruct (Z.ltb_spec x 0) as [Hx|Hx]; simpl;
    [rewrite bool_decide_eq_false_2 by lia; reflexivity|].
  destruct (Z.ltb_spec y 0) as [Hy|Hy]; simpl;
    [rewrite bool_decide_eq_false_2 by lia; reflexivity|].
  destruct (Z.ltb_spec z 0) as [Hz|Hz]; simpl;
    [rewrite bool_decide_eq_false_2 by lia; reflexivity|].
  assert (Hxy : 0 <= x * y) by nia.
  destruct (Z.lt_ge_cases (x * y) (2 ^ 64)) as [H1|H1].
  2:{ rewrite bool_decide_eq_false_2 by lia.
      destruct (Z.eqb_spec (x * y / 2 ^ 64) 0) as [E|E]; [|reflexivity].
      apply Z.div_small_iff in E; lia. }
  rewrite (Z.div_small (x * y)), (Z.mod_small (x * y)) by lia. simpl.
  assert (Hxyz : 0 <= x * y * z) by nia.
  destruct (Z.lt_ge_cases (x * y * z) (2 ^ 64)) as [H2|H2].
  2:{ rewrite bool_decide_eq_false_2 by lia.
      destruct (Z.eqb_spec (x * y * z / 2 ^ 64) 0) as [E|E]; [|reflexivity].
      apply Z.div_small_iff in E; lia. }
  rewrite (Z.div_small (x * y * z)), (Z.mod_small (x * y * z)) by lia. simpl.
  destruct (int_wrap_cases (x * y * z) ltac:(lia)) as [[H3 ->]|[H3 ->]].
  - rewrite bool_decide_eq_true_2 by lia.
    destruct (Z.ltb_spec (x * y * z) 0); [lia | reflexivity].
  - rewrite bool_decide_eq_false_2 by lia.
    destruct (Z.ltb_spec (x * y * z - 2 ^ 64) 0); [reflexivity | lia].
Qed.

(** [image.NewRGBA] on a well-formed rectangle of [int]s: it panics unless
    the row length [4 * width] is below [2^64], the height is an [int] and
    the buffer length [4 * width * height] is at most [maxAlloc]; otherwise
    it gives the zeroed buffer. *)
Lemma NewRGBA_cases r :
  image.well_formed r -> image.int_coordinates r ->
  image.NewRGBA r
  = if bool_decide (4 * width r < 2 ^ 64 /\ height r < 2 ^ 63 /\
                    4 * width r * height r <= maxAlloc)
    then Some (image.RGBA.mk (replicate (Z.to_nat (4 * width r * height r)) x00)
                 (int_wrap (4 * width r)) r)
    else None.
Proof.
  unfold image.well_formed, image.int_coordinates, is_int.
  intros [Hx Hy] (H1 & H2 & H3 & H4).
  unfold image.NewRGBA, image.pixelBufferLength. rewrite mul3NonNeg_spec.
  unfold image.Dx, image.Dy. fold (width r) (height r).
  assert (Hw : 0 <= width r < 2 ^ 64) by (unfold width; lia).
  assert (Hh : 0 <= height r < 2 ^ 64) by (unfold height; lia).
  unfold make_uint8, maxAlloc.
  destruct (int_wrap_cases _ Hw) as [[Hw' ->]|[Hw' ->]];
  destruct (int_wrap_cases _ Hh) as [[Hh' ->]|[Hh' ->]];
  repeat case_bool_decide;
    repeat (match goal with
            | |- context [Z.ltb ?a ?b] => destruct (Z.ltb_spec a b)
            end; cbn [mbind option_bind orb]);
    try reflexivity; exfalso; nia.
Qed.

(** A zeroed buffer has the shape of its rectangle, when the row length is
    an [int], and reads as transparent black everywhere. *)
Lemma blank_ok r :
  image.well_formed r -> 4 * width r < 2 ^ 63 ->
  buffer_ok (image.RGBA.mk (replicate (Z.to_nat (4 * width r * height r)) x00)
               (int_wrap (4 * width r)) r).
Proof.
  intros Hwf Hw. unfold buffer_ok. cbn [image.RGBA.Rect image.RGBA.Stride image.RGBA.Pix].
  split; [exact Hwf|]. destruct Hwf as [Hx Hy].
  assert (0 <= width r) by (unfold width; lia).
  assert (0 <= height r) by (unfold height; lia).
  split; [apply int_wrap_small; unfold is_int; lia|].
  rewrite length_replicate. nia.
Qed.

Lemma blank_zero r x y :
  image.well_formed r -> 4 * width r * height r < 2 ^ 63 ->
  image.RGBA.RGBAAt
    (image.RGBA.mk (replicate (Z.to_nat (4 * width r * height r)) x00)
       (int_wrap (4 * width r)) r) x y
  = Some (color.mkRGBA x00 x00 x00 x00).
Proof.
  intros Hwf Hlen. unfold image.RGBA.RGBAAt. cbn [image.RGBA.Rect].
  destruct (image.In (image.mkPoint x y) r) eqn:Hin; simpl; [|reflexivity].
  assert (Hw : 4 * width r < 2 ^ 63).
  { apply In_spec in Hin. unfold width, height in *. nia. }
  pose proof (blank_ok r Hwf Hw) as Hok.
  destruct (PixOffset_bounds _ x y Hok Hin) as [H0 H4].
  destruct (slice4_lookup _ _ H0 H4) as (s0 & s1 & s2 & s3 & E0 & E1 & E2 & E3 & ->).
  cbn [image.RGBA.Pix] in E0, E1, E2, E3.
  apply lookup_replicate in E0 as [-> _]. apply lookup_replicate in E1 as [-> _].
  apply lookup_replicate in E2 as [-> _]. apply lookup_replicate in E3 as [-> _].
  reflexivity.
Qed.

(** [image.NewRGBA] of the rectangle that [toGreyscale] makes for a width
    and a height that are not negative: it returns exactly when the buffer
    can be allocated. *)
Lemma NewRGBA_origin w h :
  0 <= w -> 0 <= h -> is_int w -> is_int h ->
  image.NewRGBA (image.Rect 0 0 w h)
  = if bool_decide (allocatable w h)
    then Some (image.RGBA.mk (replicate (Z.to_nat (4 * w * h)) x00) (int_wrap (4 * w))
                 (image.mkRectangle (image.mkPoint 0 0) (image.mkPoint w h)))
    else None.
Proof.
  intros Hw Hh Hwi Hhi.
  rewrite NewRGBA_cases by (apply Rect_well_formed || apply Rect_int_coordinates; assumption).
  rewrite Rect_origin by assumption. unfold width, height.
  cbn [image.X image.Y image.Min image.Max]. rewrite !Z.sub_0_r.
  unfold is_int in Hwi, Hhi.
  destruct (bool_decide (allocatable w h)) eqn:Ha.
  - apply bool_decide_eq_true in Ha. destruct Ha as (_ & _ & Ha1 & Ha2).
    rewrite bool_decide_eq_true_2 by lia. reflexivity.
  - apply bool_decide_eq_false in Ha.
    rewrite bool_decide_eq_false_2; [reflexivity|].
    intros (A1 & A2 & A3). apply Ha. unfold allocatable. lia.
Qed.

End Buffer.

(** ** The loops of [toGreyscale] *)

Section Loops.

Variable src : image.Image.

Lemma rgbaModel_is_RGBA c :
  exists o, color.assert_RGBA (color.RGBAModel_Convert c) = Some o.
Proof.
  unfold color.RGBAModel_Convert, color.rgbaModel.
  destruct c as [o| | |]; simpl; eauto;
    destruct (color.Color_RGBA _) as [[[r g] b] a]; simpl; eauto.
Qed.

(** The loop body writes [grey_color] of the source colour. *)
Lemma greyscale_pixel_Set x y img :
  greyscale_pixel src x y img
  = image.RGBA.Set_ img x y (color.InRGBA (grey_color (image.At src x y))).
Proof.
  unfold greyscale_pixel, grey_color.
  destruct (rgbaModel_is_RGBA (image.At src x y)) as [o ->]. reflexivity.
Qed.

(** The inner loop, over the rows [ys] of column [x]. *)
Lemma column_spec x (ys : list Z) img :
  buffer_ok img ->
  exists img',
    for_each ys (fun y img => greyscale_pixel src x y img) img = Some img' /\
    buffer_ok img' /\
    image.RGBA.Rect img' = image.RGBA.Rect img /\
    forall x' y',
      image.RGBA.RGBAAt img' x' y'
      = if bool_decide (x' = x /\ y' ∈ ys)
           && image.In (image.mkPoint x' y') (image.RGBA.Rect img)
        then Some (grey_color (image.At src x' y'))
        else image.RGBA.RGBAAt img x' y'.
Proof.
  revert img. induction ys as [|y ys IH]; intros img Hok.
  - exists img. split; [reflexivity|]. split; [exact Hok|]. split; [reflexivity|].
    intros x' y'.
    rewrite bool_decide_eq_false_2; [reflexivity|].
    intros [_ H]. inversion H.
  - cbn [for_each]. rewrite greyscale_pixel_Set.
    destruct (Set_spec img x y (grey_color (image.At src x y)) Hok)
      as (img1 & -> & Hok1 & HR1 & Hat1).
    cbn [mbind option_bind].
    destruct (IH img1 Hok1) as (img' & Hrun & Hok' & HR' & Hat').
    exists img'. split; [exact Hrun|]. split; [exact Hok'|].
    split; [congruence|].
    intros x' y'. rewrite Hat', Hat1, HR1.
    destruct (decide (x' = x /\ y' = y)) as [[-> ->]|Hne].
    + rewrite (bool_decide_eq_true_2 (x = x /\ y ∈ y :: ys)) by (split; [reflexivity | left]).
      rewrite (bool_decide_eq_true_2 (x = x /\ y = y)) by auto.
      rewrite !andb_true_r. simpl.
      destruct (bool_decide (x = x /\ y ∈ ys)); simpl;
        destruct (image.In (image.mkPoint x y) (image.RGBA.Rect img)); reflexivity.
    + rewrite (bool_decide_eq_false_2 (x' = x /\ y' = y)) by exact Hne.
      rewrite andb_false_r.
      rewrite (bool_decide_ext (x' = x /\ y' ∈ y :: ys) (x' = x /\ y' ∈ ys)); [reflexivity|].
      rewrite elem_of_cons. tauto.
Qed.

(** The outer loop, over the columns [xs]. *)
Lemma columns_spec (xs ys : list Z) img :
  buffer_ok img ->
  exists img',
    for_each xs
      (fun x img => for_each ys (fun y img => greyscale_pixel src x y img) img) img
    = Some img' /\
    buffer_ok img' /\
    image.RGBA.Rect img' = image.RGBA.Rect img /\
    image.RGBA.Stride img' = image.RGBA.Stride img /\
    forall x' y',
      image.RGBA.RGBAAt img' x' y'
      = if bool_decide (x' ∈ xs /\ y' ∈ ys)
           && image.In (image.mkPoint x' y') (image.RGBA.Rect img)
        then Some (grey_color (image.At src x' y'))
        else image.RGBA.RGBAAt img x' y'.
Proof.
  revert img. induction xs as [|x xs IH]; intros img Hok.
  - exists img. split; [reflexivity|]. split; [exact Hok|]. split; [reflexivity|].
    split; [reflexivity|]. intros x' y'.
    rewrite bool_decide_eq_false_2; [reflexivity|].
    intros [H _]. inversion H.
  - cbn [for_each].
    destruct (column_spec x ys img Hok) as (img1 & -> & Hok1 & HR1 & Hat1).
    cbn [mbind option_bind].
    destruct (IH img1 Hok1) as (img' & Hrun & Hok' & HR' & HS' & Hat').
    exists img'. split; [exact Hrun|]. split; [exact Hok'|].
    split; [congruence|].
    split.
    { destruct Hok as (_ & Hs & _), Hok1 as (_ & Hs1 & _). rewrite HS', Hs1, Hs, HR1.
      reflexivity. }
    intros x' y'. rewrite Hat', Hat1, HR1.
    destruct (decide (x' = x /\ y' ∈ ys)) as [Hc|Hc].
    + rewrite (bool_decide_eq_true_2 (x' = x /\ y' ∈ ys)) by exact Hc.
      rewrite (bool_decide_eq_true_2 (x' ∈ x :: xs /\ y' ∈ ys))
        by (destruct Hc as [-> Hy]; split; [left | exact Hy]).
      simpl.
      destruct (bool_decide (x' ∈ xs /\ y' ∈ ys)); simpl;
        destruct (image.In (image.mkPoint x' y') (image.RGBA.Rect img)); reflexivity.
    + rewrite (bool_decide_eq_false_2 (x' = x /\ y' ∈ ys)) by exact Hc.
      rewrite (bool_decide_ext (x' ∈ x :: xs /\ y' ∈ ys) (x' ∈ xs /\ y' ∈ ys)); [reflexivity|].
      rewrite elem_of_cons. tauto.
Qed.

(** Loops that are not entered leave the image as it is. *)
Lemma for_each_skip {S : Type} (l : list Z) (body : Z -> S -> option S) (s : S) :
  (forall i s', body i s' = Some s') -> for_each l body s = Some s.
Proof.
  intros H. induction l as [|i l IH]; [reflexivity|].
  cbn [for_each]. rewrite H. exact IH.
Qed.

Lemma loops_skip w h (img : image.RGBA.t) :
  w <= 0 \/ h <= 0 ->
  for_lt w (fun x img => for_lt h (fun y img => greyscale_pixel src x y img) img) img
  = Some img.
Proof.
  intros [Hw|Hh]; unfold for_lt.
  - unfold seqZ. replace (Z.to_nat w) with O by lia. reflexivity.
  - apply for_each_skip. intros i s'. unfold seqZ.
    replace (Z.to_nat h) with O by lia. reflexivity.
Qed.

(** What [toGreyscale] returns, once [image.NewRGBA] has returned: the
    loops do not panic; the result has the rectangle
    [image.Rect 0 0 w h] for the size [w, h] of the source and a buffer of
    four bytes for each of its pixels; a pixel with [0 <= x < w] and
    [0 <= y < h] is [grey_color] of the source colour at [(x, y)], and any
    other read gives transparent black. *)
Lemma toGreyscale_run :
  let w := image.X (image.Size (image.Bounds src)) in
  let h := image.Y (image.Size (image.Bounds src)) in
  forall img,
    image.NewRGBA (image.Rect 0 0 w h) = Some img ->
    exists out,
      toGreyscale src = Some out /\
      image.RGBA.Rect out = image.Rect 0 0 w h /\
      image.RGBA.Stride out = int_wrap (4 * width (image.Rect 0 0 w h)) /\
      Z.of_nat (length (image.RGBA.Pix out))
      = 4 * width (image.Rect 0 0 w h) * height (image.Rect 0 0 w h) /\
      (4 * width (image.Rect 0 0 w h) < 2 ^ 63 -> buffer_ok out) /\
      ((w <= 0 \/ h <= 0) -> out = img) /\
      forall x y,
        image.RGBA.RGBAAt out x y
        = Some (if bool_decide (sampled src x y)
                then grey_color (image.At src x y)
                else color.mkRGBA x00 x00 x00 x00).
Proof.
  intros w h img. unfold toGreyscale, sampled. fold w h. cbv zeta.
  destruct (Size_int (image.Bounds src)) as [Hwi Hhi]. fold w in Hwi. fold h in Hhi.
  pose proof (Rect_well_formed 0 0 w h) as Hwf.
  pose proof (Rect_int_coordinates w h Hwi Hhi) as Hic.
  rewrite (NewRGBA_cases _ Hwf Hic).
  case_bool_decide as Hc; [|discriminate]. destruct Hc as (Hc1 & Hc2 & Hc3).
  assert (Hc4 : 4 * width (image.Rect 0 0 w h) * height (image.Rect 0 0 w h) < 2 ^ 63)
    by (unfold maxAlloc in Hc3; lia).
  intros Himg. injection Himg as <-. cbn [mbind option_bind].
  set (r := image.Rect 0 0 w h) in *.
  set (img := image.RGBA.mk _ _ r).
  assert (Hw0 : 0 <= width r) by (destruct Hwf; unfold width; lia).
  assert (Hh0 : 0 <= height r) by (destruct Hwf; unfold height; lia).
  destruct (decide (0 < w /\ 0 < h)) as [[Hw Hh]|Hn].
  - assert (Hr : r = image.mkRectangle (image.mkPoint 0 0) (image.mkPoint w h))
      by (apply Rect_origin; lia).
    assert (Hwr : width r = w) by (rewrite Hr; unfold width; simpl; lia).
    assert (Hhr : height r = h) by (rewrite Hr; unfold height; simpl; lia).
    assert (Hok0 : buffer_ok img) by (apply blank_ok; [exact Hwf | nia]).
    destruct (columns_spec (seqZ 0 w) (seqZ 0 h) img Hok0)
      as (out & Hrun & Hok & HR & HS & Hat).
    exists out. unfold for_lt. split; [exact Hrun|]. split; [exact HR|].
    split; [rewrite HS; reflexivity|].
    split; [destruct Hok as (_ & _ & Hl); rewrite Hl, HR; reflexivity|].
    split; [intros _; exact Hok|]. split; [lia|].
    intros x y. rewrite Hat. unfold img at 2. rewrite blank_zero by assumption.
    cbn [image.RGBA.Rect].
    rewrite (bool_decide_ext (x ∈ seqZ 0 w /\ y ∈ seqZ 0 h) (0 <= x < w /\ 0 <= y < h))
      by (rewrite !elem_of_seqZ; lia).
    case_bool_decide as Hs; simpl; [|reflexivity].
    assert (Hin : image.In (image.mkPoint x y) r = true)
      by (rewrite Hr; apply In_spec; simpl; lia).
    rewrite Hin. reflexivity.
  - exists img. rewrite loops_skip by lia.
    split; [reflexivity|]. split; [reflexivity|]. split; [reflexivity|].
    split; [unfold img; cbn [image.RGBA.Pix]; rewrite length_replicate; nia|].
    split; [intros Hs; apply blank_ok; assumption|]. split; [reflexivity|].
    intros x y. unfold img. rewrite blank_zero by assumption.
    rewrite bool_decide_eq_false_2 by lia. reflexivity.
Qed.

(** [toGreyscale] panics exactly when [image.NewRGBA] does. *)
Lemma toGreyscale_None_iff :
  toGreyscale src = None <->
  image.NewRGBA (image.Rect 0 0 (image.X (image.Size (image.Bounds src)))
                   (image.Y (image.Size (image.Bounds src)))) = None.
Proof.
  split.
  - intros Hnone.
    destruct (image.NewRGBA _) as [img|] eqn:Hnew; [|reflexivity].
    destruct (toGreyscale_run img Hnew) as (out & Hrun & _). congruence.
  - intros Hnew. unfold toGreyscale. cbv zeta. rewrite Hnew. reflexivity.
Qed.

(** Every read of an image that [toGreyscale] returned. *)
Lemma toGreyscale_returned out :
  toGreyscale src = Some out ->
  forall x y,
    image.RGBA.RGBAAt out x y
    = Some (if bool_decide (sampled src x y)
            then grey_color (image.At src x y)
            else color.mkRGBA x00 x00 x00 x00).
Proof.
  intros Hrun.
  destruct (image.NewRGBA (image.Rect 0 0 (image.X (image.Size (image.Bounds src)))
                             (image.Y (image.Size (image.Bounds src))))) as [img|] eqn:Hnew.
  - destruct (toGreyscale_run img Hnew) as (out' & Hrun' & _ & _ & _ & _ & _ & Hat).
    rewrite Hrun in Hrun'. injection Hrun' as <-. exact Hat.
  - apply toGreyscale_None_iff in Hnew. congruence.
Qed.

(** For a source whose buffer can be allocated, [toGreyscale] returns. *)
Lemma toGreyscale_spec :
  convertible src ->
  let w := image.X (image.Size (image.Bounds src)) in
  let h := image.Y (image.Size (image.Bounds src)) in
  exists out,
    toGreyscale src = Some out /\
    image.RGBA.Rect out = image.mkRectangle (image.mkPoint 0 0) (image.mkPoint w h) /\
    image.RGBA.Stride out = int_wrap (4 * w) /\
    Z.of_nat (length (image.RGBA.Pix out)) = 4 * w * h /\
    (4 * w < 2 ^ 63 -> buffer_ok out) /\
    ((w = 0 \/ h = 0) ->
     out = image.RGBA.mk [] (int_wrap (4 * w))
             (image.mkRectangle (image.mkPoint 0 0) (image.mkPoint w h))) /\
    forall x y,
      image.RGBA.RGBAAt out x y
      = Some (if bool_decide (sampled src x y)
              then grey_color (image.At src x y)
              else color.mkRGBA x00 x00 x00 x00).
Proof.
  intros Hc w h. pose proof Hc as (Hw & Hh & Hc1 & Hc2). fold w h in Hw, Hh, Hc1, Hc2.
  destruct (Size_int (image.Bounds src)) as [Hwi Hhi]. fold w in Hwi. fold h in Hhi.
  pose proof (NewRGBA_origin w h Hw Hh Hwi Hhi) as Hnew.
  rewrite bool_decide_eq_true_2 in Hnew by exact Hc.
  destruct (toGreyscale_run _ Hnew) as (out & Hrun & HR & HS & Hl & Hok & Hskip & Hat).
  fold w h in HR, HS, Hl, Hok, Hskip.
  rewrite Rect_origin in HR, HS, Hl, Hok by assumption.
  unfold width, height in HS, Hl, Hok. cbn [image.X image.Y image.Min image.Max] in HS, Hl, Hok.
  rewrite !Z.sub_0_r in HS, Hl, Hok.
  exists out. split; [exact Hrun|]. split; [exact HR|]. split; [exact HS|].
  split; [rewrite Hl; ring|]. split; [exact Hok|]. split; [|exact Hat].
  intros H0. rewrite Hskip by lia. f_equal.
  replace (4 * w * h) with 0 by nia. reflexivity.
Qed.

(** A source of width and height at least zero whose buffer cannot be
    allocated makes [toGreyscale] panic. *)
Lemma toGreyscale_panics :
  0 <= image.X (image.Size (image.Bounds src)) ->
  0 <= image.Y (image.Size (image.Bounds src)) ->
  ~ convertible src -> toGreyscale src = None.
Proof.
  intros Hw Hh Hn. apply toGreyscale_None_iff.
  destruct (Size_int (image.Bounds src)) as [Hwi Hhi].
  rewrite (NewRGBA_origin _ _ Hw Hh Hwi Hhi).
  rewrite bool_decide_eq_false_2 by exact Hn. reflexivity.
Qed.

End Loops.

(** ** Colours *)

Section Colours.

Lemma dup8_all :
  forallb (fun n => Z.lor n (Z.shiftl n 8) =? 257 * n) chans = true.
Proof. vm_compute. reflexivity. Qed.

Lemma dup8_eq (b : uint8) : color.dup8 b = 257 * Z_of_uint8 b.
Proof.
  pose proof (forallb_elim _ _ (Z_of_uint8 b) dup8_all) as H.
  rewrite <- list_elem_of_In, elem_of_chans in H.
  specialize (H (Z_of_uint8_range b)). apply Z.eqb_eq in H. exact H.
Qed.

Lemma dup8_shiftr (b : uint8) : uint8_of_Z (Z.shiftr (color.dup8 b) 8) = b.
Proof.
  rewrite dup8_eq, Z.shiftr_div_pow2 by lia.
  pose proof (Z_of_uint8_range b).
  replace (257 * Z_of_uint8 b / 2 ^ 8) with (Z_of_uint8 b)
    by (change (2 ^ 8) with 256; apply Z.div_unique with (Z_of_uint8 b); lia).
  apply uint8_of_Z_of_uint8.
Qed.

(** The conversion of [color.RGBAModel] is, for every colour, the high
    byte of each 16-bit channel of its [RGBA] method; a [color.RGBA] value
    is returned as it is. *)
Lemma rgbaModel_canonical (c : color.Color) :
  color.assert_RGBA (color.RGBAModel_Convert c)
  = let '(r, g, b, a) := color.Color_RGBA c in
    Some (color.mkRGBA (uint8_of_Z (Z.shiftr r 8)) (uint8_of_Z (Z.shiftr g 8))
            (uint8_of_Z (Z.shiftr b 8)) (uint8_of_Z (Z.shiftr a 8))).
Proof.
  unfold color.RGBAModel_Convert, color.rgbaModel.
  destruct c as [[R G B A]| | |]; try reflexivity.
  simpl. rewrite !dup8_shiftr. reflexivity.
Qed.

Lemma grey_color_ext (c1 c2 : color.Color) :
  color.Color_RGBA c1 = color.Color_RGBA c2 -> grey_color c1 = grey_color c2.
Proof.
  intros H. unfold grey_color. rewrite !rgbaModel_canonical, H. reflexivity.
Qed.

Lemma Color_RGBA_nonneg (c : color.Color) :
  let '(r, g, b, a) := color.Color_RGBA c in 0 <= r /\ 0 <= g /\ 0 <= b /\ 0 <= a.
Proof.
  destruct c as [[R G B A]|[R G B A]|Y|r g b a]; simpl; rewrite ?dup8_eq.
  - pose proof (Z_of_uint8_range R). pose proof (Z_of_uint8_range G).
    pose proof (Z_of_uint8_range B). pose proof (Z_of_uint8_range A). lia.
  - pose proof (Z_of_uint8_range A). unfold wrap32.
    repeat split; try lia; apply Z.div_pos; try lia; apply Z.mod_pos_bound; lia.
  - pose proof (Z_of_uint8_range Y). lia.
  - unfold wrap32. repeat split; apply Z.mod_pos_bound; lia.
Qed.

(** Non-premultiplied and grey colours become premultiplied ones. *)
Lemma NRGBA_premultiplied (c : color.NRGBA) : color.premultiplied (color.InNRGBA c).
Proof.
  destruct c as [R G B A]. unfold color.premultiplied. simpl. rewrite !dup8_eq.
  pose proof (Z_of_uint8_range R). pose proof (Z_of_uint8_range G).
  pose proof (Z_of_uint8_range B). pose proof (Z_of_uint8_range A).
  assert (Hc : forall v, 0 <= v < 256 ->
            wrap32 (257 * v * Z_of_uint8 A) / 255 <= 257 * Z_of_uint8 A).
  { intros v Hv. unfold wrap32. rewrite Z.mod_small by (change (2 ^ 32) with 4294967296; nia).
    apply Z.div_le_upper_bound; nia. }
  repeat split; try apply Hc; lia.
Qed.

Lemma Gray_premultiplied (Y : uint8) : color.premultiplied (color.InGray Y).
Proof.
  unfold color.premultiplied. simpl. rewrite !dup8_eq.
  pose proof (Z_of_uint8_range Y). lia.
Qed.

Lemma RGBA_premultiplied (c : color.RGBA) :
  color.premultiplied (color.InRGBA c) <->
  Z_of_uint8 (color.R c) <= Z_of_uint8 (color.A c) /\
  Z_of_uint8 (color.G c) <= Z_of_uint8 (color.A c) /\
  Z_of_uint8 (color.B c) <= Z_of_uint8 (color.A c).
Proof.
  unfold color.premultiplied. simpl. rewrite !dup8_eq.
  pose proof (Z_of_uint8_range (color.A c)). lia.
Qed.

(** The normalized channels of a premultiplied colour are bounded by its
    normalized alpha. *)
Lemma premultiplied_normalized (c : color.Color) (o : color.RGBA) :
  color.premultiplied c ->
  color.assert_RGBA (color.RGBAModel_Convert c) = Some o ->
  Z_of_uint8 (color.R o) <= Z_of_uint8 (color.A o) /\
  Z_of_uint8 (color.G o) <= Z_of_uint8 (color.A o) /\
  Z_of_uint8 (color.B o) <= Z_of_uint8 (color.A o).
Proof.
  intros Hp Ho. rewrite rgbaModel_canonical in Ho.
  pose proof (Color_RGBA_nonneg c) as Hnn. unfold color.premultiplied in Hp.
  destruct (color.Color_RGBA c) as [[[r g] b] a].
  destruct Hp as (Hr & Hg & Hb & Ha). destruct Hnn as (Hr0 & Hg0 & Hb0 & Ha0).
  injection Ho as <-. simpl. rewrite !Z_of_uint8_of_Z, !Z.shiftr_div_pow2 by lia.
  change (2 ^ 8) with 256.
  assert (Hs : forall v, 0 <= v <= a -> (v / 256) mod 256 <= (a / 256) mod 256).
  { intros v Hv.
    assert (v / 256 <= a / 256) by (apply Z.div_le_mono; lia).
    assert (0 <= v / 256) by (apply Z.div_pos; lia).
    assert (a / 256 < 256) by (apply Z.div_lt_upper_bound; lia).
    rewrite !Z.mod_small by lia. lia. }
  repeat split; apply Hs; lia.
Qed.

End Colours.

(** ** The output file name *)

Section Paths.

Implicit Types (path d t : list byte).

Lemma Ext_loop_spec path (n : nat) :
  (n <= length path)%nat ->
  (filepath.dot ∉ drop n path) -> (filepath.slash ∉ drop n path) ->
  (exists d t, path = d ++ filepath.dot :: t /\ (filepath.dot ∉ t) /\ (filepath.slash ∉ t) /\
     filepath.Ext_loop path n = filepath.dot :: t) \/
  (exists d t, path = d ++ t /\ (filepath.dot ∉ t) /\ (filepath.slash ∉ t) /\
     (d = [] \/ exists d', d = d' ++ [filepath.slash]) /\
     filepath.Ext_loop path n = []).
Proof.
  induction n as [|i IH]; intros Hn Hdot Hsep.
  - right. exists [], path. rewrite drop_0 in Hdot, Hsep. simpl. repeat split; auto.
  - destruct (lookup_lt_is_Some_2 path i ltac:(lia)) as [c Hc].
    pose proof (take_drop_middle path i c Hc) as Hsplit.
    simpl. rewrite Hc. unfold filepath.IsPathSeparator.
    case_bool_decide as Hs.
    + right. exists (take i path ++ [filepath.slash]), (drop (S i) path).
      subst c. rewrite <- app_assoc. simpl. repeat split; eauto.
    + case_bool_decide as Hd.
      * left. exists (take i path), (drop (S i) path). subst c.
        rewrite (drop_S path filepath.dot i Hc). repeat split; auto.
      * apply IH; [lia| |]; rewrite (drop_S path c i Hc);
          apply not_elem_of_cons; auto.
Qed.

Lemma Ext_spec path :
  (exists d t, path = d ++ filepath.dot :: t /\ (filepath.dot ∉ t) /\ (filepath.slash ∉ t) /\
     filepath.Ext path = filepath.dot :: t) \/
  (exists d t, path = d ++ t /\ (filepath.dot ∉ t) /\ (filepath.slash ∉ t) /\
     (d = [] \/ exists d', d = d' ++ [filepath.slash]) /\
     filepath.Ext path = []).
Proof.
  unfold filepath.Ext. apply Ext_loop_spec; [lia| |];
    rewrite drop_all; apply not_elem_of_nil.
Qed.

Lemma TrimSuffix_app d t : strings.TrimSuffix (d ++ t) t = d.
Proof.
  unfold strings.TrimSuffix, strings.HasSuffix. rewrite length_app.
  replace (length d + length t - length t)%nat with (length d) by lia.
  rewrite drop_app_length, take_app_length.
  rewrite bool_decide_eq_true_2 by reflexivity.
  destruct (Nat.leb_spec (length t) (length d + length t)); [reflexivity | lia].
Qed.

Lemma TrimSuffix_nil path : strings.TrimSuffix path [] = path.
Proof.
  rewrite <- (app_nil_r path) at 1. rewrite TrimSuffix_app. reflexivity.
Qed.

End Paths.

(** * The claims *)

(** The coefficients are the binary64 numbers nearest to 0.299, 0.587 and
    0.114: each is within half a unit in the last place of its decimal. *)
Lemma coefficients_nearest :
  Prim2SF c_red = S754_finite false 5386305154335113 (-54) /\
  2 * Z.abs (1000 * 5386305154335113 - 299 * 2 ^ 54) <= 1000 /\
  Prim2SF c_green = S754_finite false 5287225962532962 (-53) /\
  2 * Z.abs (1000 * 5287225962532962 - 587 * 2 ^ 53) <= 1000 /\
  Prim2SF c_blue = S754_finite false 8214565720323785 (-56) /\
  2 * Z.abs (1000 * 8214565720323785 - 114 * 2 ^ 56) <= 1000.
Proof. repeat split; vm_compute; congruence. Qed.

(** The worked examples of the specification: pure red, white, and the two
    pixels of its end-to-end scenario. *)
Example luminosity_examples :
  Z_of_uint8 (grey_of xff x00 x00) = 76 /\
  Z_of_uint8 (grey_of xff xff xff) = 255 /\
  Z_of_uint8 (grey_of (uint8_of_Z 200) (uint8_of_Z 100) (uint8_of_Z 50)) = 124 /\
  Z_of_uint8 (grey_of (uint8_of_Z 10) (uint8_of_Z 20) (uint8_of_Z 30)) = 18 /\
  Z_of_uint8 (grey_of x00 x00 x00) = 0.
Proof. repeat split; vm_compute; reflexivity. Qed.

(** A sampled pixel of the result, in terms of the normalized source
    colour. *)
Lemma sampled_pixel (src : image.Image) (x y : Z) :
  convertible src ->
  sampled src x y ->
  exists out o,
    toGreyscale src = Some out /\
    color.assert_RGBA (color.RGBAModel_Convert (image.At src x y)) = Some o /\
    image.RGBA.RGBAAt out x y
    = Some (color.mkRGBA (grey_of (color.R o) (color.G o) (color.B o))
              (grey_of (color.R o) (color.G o) (color.B o))
              (grey_of (color.R o) (color.G o) (color.B o)) (color.A o)).
Proof.
  intros Hc Hs.
  destruct (toGreyscale_spec src Hc) as (out & Hrun & _ & _ & _ & _ & _ & Hat).
  destruct (rgbaModel_is_RGBA (image.At src x y)) as [o Ho].
  exists out, o. split; [exact Hrun|]. split; [exact Ho|].
  rewrite Hat, bool_decide_eq_true_2 by exact Hs.
  unfold grey_color. rewrite Ho. reflexivity.
Qed.

(** The end-to-end scenario of the specification, on the decoded image:
    two pixels (200, 100, 50, 255) and (10, 20, 30, 0) become
    (124, 124, 124, 255) and (18, 18, 18, 0), in a buffer of eight bytes. *)
Example two_pixels_result : toGreyscale two_pixels = Some two_pixels_grey.
Proof. vm_compute. reflexivity. Qed.

(** Sources whose buffer cannot be allocated: [image.NewRGBA] panics on
    [2^31] by [2^31] pixels (a buffer of [2^64] bytes), on [2^62] by 0
    pixels (a row of [2^64] bytes, though the buffer is empty), and, in
    [make], on [2^30] by [2^30] pixels (a buffer of [2^62] bytes). *)
Example huge_images_panic :
  toGreyscale huge_image = None /\ toGreyscale flat_image = None /\
  toGreyscale large_image = None.
Proof. repeat split; vm_compute; reflexivity. Qed.



(** C2, as the code has it.  For every source image of width and height at
    least zero whose buffer can be allocated (four bytes per pixel: the
    row length [4 * width] below [2^64], the buffer length
    [4 * width * height] at most [maxAlloc]), [toGreyscale] returns an
    image of the same width and height, with a buffer of that length; for
    a 0 x 0 source the result is 0 x 0, with an empty buffer, and the
    conversion does not fail. *)
Theorem C2_dimensions_preserved (src : image.Image) :
  convertible src ->
  exists out,
    toGreyscale src = Some out /\
    image.Size (image.RGBA.Bounds out) = image.Size (image.Bounds src) /\
    Z.of_nat (length (image.RGBA.Pix out))
    = 4 * image.X (image.Size (image.Bounds src)) * image.Y (image.Size (image.Bounds src)) /\
    (image.Size (image.Bounds src) = image.mkPoint 0 0 ->
     image.Size (image.RGBA.Bounds out) = image.mkPoint 0 0 /\
     image.RGBA.Pix out = []).
Proof.
  intros Hc. destruct (toGreyscale_spec src Hc) as (out & Hrun & HR & _ & Hlen & _ & _ & _).
  exists out. split; [exact Hrun|].
  assert (Hsize : image.Size (image.RGBA.Bounds out) = image.Size (image.Bounds src)).
  { unfold image.RGBA.Bounds. rewrite HR.
    destruct (Size_int (image.Bounds src)) as [Hwi Hhi]. destruct Hc as (Hw & Hh & _).
    unfold image.Size at 1, image.Dx at 1, image.Dy at 1.
    cbn [image.X image.Y image.Min image.Max]. rewrite !Z.sub_0_r.
    rewrite !int_wrap_small by assumption. reflexivity. }
  split; [exact Hsize|]. split; [exact Hlen|].
  intros H0. split; [congruence|]. rewrite H0 in Hlen. simpl in Hlen.
  destruct (image.RGBA.Pix out); [reflexivity | simpl in Hlen; lia].
Qed.

Lemma C2_witness :
  (exists out,
     toGreyscale two_pixels = Some out /\
     image.Size (image.RGBA.Bounds out) = image.Size (image.Bounds two_pixels) /\
     Z.of_nat (length (image.RGBA.Pix out))
     = 4 * image.X (image.Size (image.Bounds two_pixels))
         * image.Y (image.Size (image.Bounds two_pixels)) /\
     (image.Size (image.Bounds two_pixels) = image.mkPoint 0 0 ->
      image.Size (image.RGBA.Bounds out) = image.mkPoint 0 0 /\
      image.RGBA.Pix out = [])) /\
  (exists out,
     toGreyscale empty_image = Some out /\
     image.Size (image.RGBA.Bounds out) = image.Size (image.Bounds empty_image) /\
     Z.of_nat (length (image.RGBA.Pix out))
     = 4 * image.X (image.Size (image.Bounds empty_image))
         * image.Y (image.Size (image.Bounds empty_image)) /\
     (image.Size (image.Bounds empty_image) = image.mkPoint 0 0 ->
      image.Size (image.RGBA.Bounds out) = image.mkPoint 0 0 /\
      image.RGBA.Pix out = [])).
Proof.
  split.
  - apply (C2_dimensions_preserved two_pixels). vm_compute. intuition congruence.
  - apply (C2_dimensions_preserved empty_image). vm_compute. intuition congruence.
Defined.

(** C2, as stated, fails: [huge_image] has width and height [2^31], both
    at least zero, and [toGreyscale] panics on it in [image.NewRGBA]. *)
Lemma C2_counterexample :
  ~ (forall src : image.Image,
       0 <= image.X (image.Size (image.Bounds src)) ->
       0 <= image.Y (image.Size (image.Bounds src)) ->
       exists out,
         toGreyscale src = Some out /\
         image.Size (image.RGBA.Bounds out) = image.Size (image.Bounds src)).
Proof.
  intros H.
  destruct (H huge_image) as (out & Hrun & _); [vm_compute; congruence ..|].
  vm_compute in Hrun. discriminate.
Qed.

(** C3. For every source image, every pixel of the image returned by
    [toGreyscale] has equal red, green and blue; and an image is returned
    whenever the buffer can be allocated. *)
Theorem C3_grey_invariant (src : image.Image) :
  (convertible src -> exists out, toGreyscale src = Some out) /\
  forall out, toGreyscale src = Some out ->
    forall x y, exists c,
      image.RGBA.RGBAAt out x y = Some c /\
      color.R c = color.G c /\ color.G c = color.B c.
Proof.
  split.
  - intros Hc. destruct (toGreyscale_spec src Hc) as (out & Hrun & _). eauto.
  - intros out Hrun x y. rewrite (toGreyscale_returned src out Hrun).
    eexists. split; [reflexivity|].
    case_bool_decide; [|auto]. unfold grey_color.
    destruct (color.assert_RGBA _); auto.
Qed.

Lemma C3_witness :
  (exists out, toGreyscale two_pixels = Some out) /\
  exists c,
    image.RGBA.RGBAAt two_pixels_grey 1 0 = Some c /\
    color.R c = color.G c /\ color.G c = color.B c.
Proof.
  destruct (C3_grey_invariant two_pixels) as [Hreturns Hgrey]. split.
  - apply Hreturns. vm_compute. intuition congruence.
  - apply (Hgrey two_pixels_grey). vm_compute. reflexivity.
Defined.

Lemma for_each_ext {S : Type} (l : list Z) (f g : Z -> S -> option S) (s : S) :
  (forall i s', i ∈ l -> f i s' = g i s') -> for_each l f s = for_each l g s.
Proof.
  revert s. induction l as [|i l IH]; intros s H; [reflexivity|].
  simpl. rewrite (H i s) by left.
  destruct (g i s) as [s'|]; simpl; [|reflexivity].
  apply IH. intros j s'' Hj. apply H. now right.
Qed.

(** Two sources of the same size whose colours agree under the RGBA colour
    model at every sampled coordinate give the same result. *)
Lemma toGreyscale_ext (src1 src2 : image.Image) :
  image.Size (image.Bounds src1) = image.Size (image.Bounds src2) ->
  (forall x y, sampled src1 x y ->
     color.Color_RGBA (image.At src1 x y) = color.Color_RGBA (image.At src2 x y)) ->
  toGreyscale src1 = toGreyscale src2.
Proof.
  intros Hsize Hcol. unfold toGreyscale, for_lt. rewrite <- Hsize. cbv zeta.
  destruct (image.NewRGBA _) as [img|]; [|reflexivity]. cbn [mbind option_bind].
  apply for_each_ext. intros x img1 Hx.
  apply for_each_ext. intros y img2 Hy.
  rewrite !greyscale_pixel_Set. do 2 f_equal.
  apply grey_color_ext, Hcol. unfold sampled.
  rewrite elem_of_seqZ in Hx, Hy. lia.
Qed.

(** The sampled coordinates of a source whose bounds start at (0, 0) are
    its pixels. *)
Lemma sampled_origin (src : image.Image) (x y : Z) :
  image.well_formed (image.Bounds src) ->
  image.int_coordinates (image.Bounds src) ->
  image.Min (image.Bounds src) = image.mkPoint 0 0 ->
  (sampled src x y <-> image.In (image.mkPoint x y) (image.Bounds src) = true).
Proof.
  intros [Hwx Hwy] (_ & _ & Hx & Hy) Hmin. rewrite Hmin in Hwx, Hwy.
  cbn [image.X image.Y] in Hwx, Hwy.
  unfold sampled, image.Size, image.Dx, image.Dy. rewrite In_spec, Hmin.
  cbn [image.X image.Y]. rewrite !Z.sub_0_r.
  rewrite !int_wrap_small by (unfold is_int in *; lia). lia.
Qed.




Example offset_pixel_results :
  (exists out, toGreyscale offset_rgba = Some out /\
     image.RGBA.RGBAAt out 0 0 = Some (color.mkRGBA x00 x00 x00 x00)) /\
  (exists out, toGreyscale offset_gray = Some out /\
     image.RGBA.RGBAAt out 0 0 = Some (color.mkRGBA x00 x00 x00 xff)).
Proof. split; eexists; (split; [vm_compute; reflexivity | reflexivity]). Qed.



(** The greatest luminosity is that of white, 255, and it is converted as
    it is. *)
Example white_is_255 :
  int_of_float64 (math.Round (luminosity xff xff xff)) = 255 /\ grey_of xff xff xff = xff.
Proof. split; vm_compute; reflexivity. Qed.

(** C6. A sampled pixel whose normalized channels are all [g] keeps the
    grey value [g] (and its alpha): converting an already grey image leaves
    every pixel's grey value as it was. *)
Theorem C6_grey_is_fixed (src : image.Image) (x y : Z) (g a : uint8) :
  convertible src ->
  sampled src x y ->
  color.assert_RGBA (color.RGBAModel_Convert (image.At src x y))
  = Some (color.mkRGBA g g g a) ->
  grey_of g g g = g /\
  exists out,
    toGreyscale src = Some out /\
    image.RGBA.RGBAAt out x y = Some (color.mkRGBA g g g a).
Proof.
  intros Hc Hs Ho. split; [apply grey_of_diag|].
  destruct (sampled_pixel src x y Hc Hs) as (out & o & Hrun & Ho' & Hat).
  exists out. split; [exact Hrun|].
  rewrite Ho in Ho'. injection Ho' as <-. simpl in Hat.
  rewrite grey_of_diag in Hat. exact Hat.
Qed.

Lemma C6_witness :
  grey_of (uint8_of_Z 77) (uint8_of_Z 77) (uint8_of_Z 77) = uint8_of_Z 77 /\
  exists out,
    toGreyscale grey_image = Some out /\
    image.RGBA.RGBAAt out 1 1
    = Some (color.mkRGBA (uint8_of_Z 77) (uint8_of_Z 77) (uint8_of_Z 77) (uint8_of_Z 128)).
Proof.
  apply (C6_grey_is_fixed grey_image 1 1 (uint8_of_Z 77) (uint8_of_Z 128)).
  - vm_compute. intuition congruence.
  - vm_compute. intuition congruence.
  - reflexivity.
Defined.

(** C9. For every source image (with well-formed bounds, and a buffer that
    can be allocated), the result has its minimum corner at (0, 0), and the
    pixel at [(x, y)], for [0 <= x < width] and [0 <= y < height], comes
    from [At(x, y)] of the source in absolute coordinates, whatever the
    origin of the source's bounds.  The sampled coordinates are the
    source's own pixel rectangle when its minimum corner is (0, 0); when it
    is not (and the image has a pixel), some sampled coordinate lies
    outside that rectangle. *)
Theorem C9_origin_and_sampling (src : image.Image) :
  image.well_formed (image.Bounds src) ->
  image.int_coordinates (image.Bounds src) ->
  convertible src ->
  exists out,
    toGreyscale src = Some out /\
    image.Min (image.RGBA.Bounds out) = image.mkPoint 0 0 /\
    (forall x y, sampled src x y ->
       image.RGBA.RGBAAt out x y = Some (grey_color (image.At src x y))) /\
    (image.Min (image.Bounds src) = image.mkPoint 0 0 ->
     forall x y, sampled src x y <->
                 image.In (image.mkPoint x y) (image.Bounds src) = true) /\
    (image.Min (image.Bounds src) <> image.mkPoint 0 0 ->
     (exists x y, sampled src x y) ->
     exists x y, sampled src x y /\
                 image.In (image.mkPoint x y) (image.Bounds src) = false).
Proof.
  intros Hwf Hic Hc.
  destruct (toGreyscale_spec src Hc) as (out & Hrun & HR & _ & _ & _ & _ & Hat).
  exists out. split; [exact Hrun|].
  split; [unfold image.RGBA.Bounds; rewrite HR; reflexivity|].
  split; [intros x y Hs; rewrite Hat, bool_decide_eq_true_2 by exact Hs; reflexivity|].
  split; [intros Hmin x y; apply sampled_origin; assumption|].
  pose proof Hc as (Hw & Hh & _).
  destruct (Size_exact _ Hwf Hic Hw Hh) as [Ew Eh].
  unfold sampled. rewrite Ew, Eh. unfold width, height.
  clear Ew Eh Hw Hh Hat Hrun HR Hc Hic.
  destruct Hwf as [Hwx Hwy].
  destruct (image.Bounds src) as [[mx my] [Mx My]] eqn:Hb.
  cbn [image.X image.Y image.Min image.Max] in *.
  intros Hmin (x0 & y0 & Hx0 & Hy0).
  assert (Hcases : mx <> 0 \/ my <> 0).
  { destruct (Z.eq_dec mx 0) as [->|]; [|auto].
    destruct (Z.eq_dec my 0) as [->|]; [|auto]. congruence. }
  assert (Hout : forall x y,
            ~ (mx <= x < Mx /\ my <= y < My) ->
            image.In (image.mkPoint x y)
              (image.mkRectangle (image.mkPoint mx my) (image.mkPoint Mx My)) = false).
  { intros x y Hn. apply not_true_is_false. rewrite In_spec. exact Hn. }
  destruct (Z.lt_trichotomy mx 0) as [Hx|[Hx|Hx]].
  + exists (Mx - mx - 1), 0. split; [lia|]. apply Hout. simpl. lia.
  + destruct (Z.lt_trichotomy my 0) as [Hy|[Hy|Hy]].
    * exists 0, (My - my - 1). split; [lia|]. apply Hout. simpl. lia.
    * lia.
    * exists 0, 0. split; [lia|]. apply Hout. simpl. lia.
  + exists 0, 0. split; [lia|]. apply Hout. simpl. lia.
Qed.

Lemma C9_witness :
  exists out,
    toGreyscale offset_image = Some out /\
    image.Min (image.RGBA.Bounds out) = image.mkPoint 0 0 /\
    (forall x y, sampled offset_image x y ->
       image.RGBA.RGBAAt out x y = Some (grey_color (image.At offset_image x y))) /\
    (image.Min (image.Bounds offset_image) = image.mkPoint 0 0 ->
     forall x y, sampled offset_image x y <->
                 image.In (image.mkPoint x y) (image.Bounds offset_image) = true) /\
    (image.Min (image.Bounds offset_image) <> image.mkPoint 0 0 ->
     (exists x y, sampled offset_image x y) ->
     exists x y, sampled offset_image x y /\
                 image.In (image.mkPoint x y) (image.Bounds offset_image) = false).
Proof.
  apply (C9_origin_and_sampling offset_image); vm_compute; intuition congruence.
Defined.

(** The red pixels of [offset_image] are at (1, 1) and (2, 1); the
    conversion reads (0, 0) and (1, 0), both outside the rectangle, and the
    result is transparent black. *)
Example offset_image_result :
  exists out,
    toGreyscale offset_image = Some out /\
    image.RGBA.RGBAAt out 0 0 = Some (color.mkRGBA x00 x00 x00 x00) /\
    image.RGBA.RGBAAt out 1 0 = Some (color.mkRGBA x00 x00 x00 x00).
Proof. eexists. split; [vm_compute; reflexivity|]. split; reflexivity. Qed.

(** C10, as the code has it.  For a sampled pixel whose source colour is
    alpha-premultiplied (as every [color.NRGBA] and [color.Gray] value is
    after conversion), the normalized R, G and B are at most the normalized
    alpha A, the grey value is at most A, so the output pixel is
    alpha-premultiplied too, and A = 0 gives the pixel (0, 0, 0, 0). *)
Theorem C10_premultiplied_preserved (src : image.Image) (x y : Z) :
  convertible src ->
  sampled src x y ->
  color.premultiplied (image.At src x y) ->
  exists out o g,
    toGreyscale src = Some out /\
    color.assert_RGBA (color.RGBAModel_Convert (image.At src x y)) = Some o /\
    image.RGBA.RGBAAt out x y = Some (color.mkRGBA g g g (color.A o)) /\
    Z_of_uint8 (color.R o) <= Z_of_uint8 (color.A o) /\
    Z_of_uint8 (color.G o) <= Z_of_uint8 (color.A o) /\
    Z_of_uint8 (color.B o) <= Z_of_uint8 (color.A o) /\
    Z_of_uint8 g <= Z_of_uint8 (color.A o) /\
    (color.A o = x00 ->
     image.RGBA.RGBAAt out x y = Some (color.mkRGBA x00 x00 x00 x00)).
Proof.
  intros Hc Hs Hp. destruct (sampled_pixel src x y Hc Hs) as (out & o & Hrun & Ho & Hat).
  exists out, o, (grey_of (color.R o) (color.G o) (color.B o)).
  split; [exact Hrun|]. split; [exact Ho|]. split; [exact Hat|].
  destruct (premultiplied_normalized _ _ Hp Ho) as (Hr & Hg & Hb).
  pose proof (luminosity_rounded (color.R o) (color.G o) (color.B o)) as [Hn _].
  rewrite <- grey_of_exact in Hn.
  assert (Hgrey : Z_of_uint8 (grey_of (color.R o) (color.G o) (color.B o))
                  <= Z_of_uint8 (color.A o)) by lia.
  repeat (split; [assumption|]).
  intros Ha. rewrite Hat, Ha. rewrite Ha in Hgrey.
  assert (Hz : grey_of (color.R o) (color.G o) (color.B o) = x00).
  { apply Z_of_uint8_inj. change (Z_of_uint8 x00) with 0 in *. lia. }
  rewrite Hz. reflexivity.
Qed.

(** The two pixels of [translucent_pixels]: the half-transparent
    (200, 100, 50, 128) is normalized to (100, 50, 25, 128) and becomes
    (62, 62, 62, 128); the transparent (10, 20, 30, 0) is normalized to
    (0, 0, 0, 0) and stays so. *)
Example translucent_pixels_result :
  exists out,
    toGreyscale translucent_pixels = Some out /\
    map Z_of_uint8 (image.RGBA.Pix out) = [62; 62; 62; 128; 0; 0; 0; 0].
Proof. eexists. split; [vm_compute; reflexivity | reflexivity]. Qed.

Lemma C10_witness :
  (exists out o g,
     toGreyscale translucent_pixels = Some out /\
     color.assert_RGBA (color.RGBAModel_Convert (image.At translucent_pixels 0 0)) = Some o /\
     image.RGBA.RGBAAt out 0 0 = Some (color.mkRGBA g g g (color.A o)) /\
     Z_of_uint8 (color.R o) <= Z_of_uint8 (color.A o) /\
     Z_of_uint8 (color.G o) <= Z_of_uint8 (color.A o) /\
     Z_of_uint8 (color.B o) <= Z_of_uint8 (color.A o) /\
     Z_of_uint8 g <= Z_of_uint8 (color.A o) /\
     (color.A o = x00 ->
      image.RGBA.RGBAAt out 0 0 = Some (color.mkRGBA x00 x00 x00 x00))) /\
  (exists out o g,
     toGreyscale translucent_pixels = Some out /\
     color.assert_RGBA (color.RGBAModel_Convert (image.At translucent_pixels 1 0)) = Some o /\
     image.RGBA.RGBAAt out 1 0 = Some (color.mkRGBA g g g (color.A o)) /\
     Z_of_uint8 (color.R o) <= Z_of_uint8 (color.A o) /\
     Z_of_uint8 (color.G o) <= Z_of_uint8 (color.A o) /\
     Z_of_uint8 (color.B o) <= Z_of_uint8 (color.A o) /\
     Z_of_uint8 g <= Z_of_uint8 (color.A o) /\
     (color.A o = x00 ->
      image.RGBA.RGBAAt out 1 0 = Some (color.mkRGBA x00 x00 x00 x00))).
Proof.
  split.
  - apply (C10_premultiplied_preserved translucent_pixels 0 0).
    + vm_compute. intuition congruence.
    + vm_compute. intuition congruence.
    + apply NRGBA_premultiplied.
  - apply (C10_premultiplied_preserved translucent_pixels 1 0).
    + vm_compute. intuition congruence.
    + vm_compute. intuition congruence.
    + apply NRGBA_premultiplied.
Defined.

(** C10, as stated, fails: the second pixel of [two_pixels] is stored as
    (10, 20, 30, 0) in a [color.RGBA]; it is read as it is, and the result
    is (18, 18, 18, 0), whose grey exceeds its alpha and which is not
    (0, 0, 0, 0) though A = 0. *)
Lemma C10_counterexample :
  ~ (forall (src : image.Image) (x y : Z) (out : image.RGBA.t) (c : color.RGBA),
       sampled src x y ->
       toGreyscale src = Some out ->
       image.RGBA.RGBAAt out x y = Some c ->
       Z_of_uint8 (color.R c) <= Z_of_uint8 (color.A c) /\
       (color.A c = x00 -> c = color.mkRGBA x00 x00 x00 x00)).
Proof.
  intros H.
  destruct (toGreyscale two_pixels) as [out|] eqn:Hrun; [|vm_compute in Hrun; discriminate].
  assert (Hs : sampled two_pixels 1 0) by (vm_compute; intuition congruence).
  assert (Hat : image.RGBA.RGBAAt out 1 0
                = Some (color.mkRGBA (uint8_of_Z 18) (uint8_of_Z 18) (uint8_of_Z 18) x00)).
  { vm_compute in Hrun. injection Hrun as <-. reflexivity. }
  destruct (H two_pixels 1 0 out _ Hs Hrun Hat) as [Hle _].
  vm_compute in Hle. apply Hle. reflexivity.
Qed.

(** C7, as the code has it.  The extension E is looked for in the final
    element of the path only (what follows the last ['/']): it is the
    substring from the last ['.'] of that element to the end, and empty
    when that element has no ['.'].  The output path is base + "_greyscale"
    + E, where the path is base + E; "photo.jpg" gives
    "photo_greyscale.jpg". *)
Theorem C7_output_path (P : list byte) :
  ((exists d t,
      P = d ++ filepath.dot :: t /\ (filepath.dot ∉ t) /\ (filepath.slash ∉ t) /\
      filepath.Ext P = filepath.dot :: t /\
      outputFilename P = d ++ str "_greyscale" ++ filepath.dot :: t) \/
   (exists d t,
      P = d ++ t /\ (filepath.dot ∉ t) /\ (filepath.slash ∉ t) /\
      (d = [] \/ exists d', d = d' ++ [filepath.slash]) /\
      filepath.Ext P = [] /\
      outputFilename P = P ++ str "_greyscale")) /\
  outputFilename (str "photo.jpg") = str "photo_greyscale.jpg".
Proof.
  split; [|reflexivity].
  unfold outputFilename.
  destruct (Ext_spec P) as [(d & t & HP & Hd & Hs & HE)|(d & t & HP & Hd & Hs & Hd' & HE)].
  - left. exists d, t. rewrite HE. repeat split; auto.
    rewrite HP at 1. rewrite TrimSuffix_app. reflexivity.
  - right. exists d, t. rewrite HE. repeat split; auto.
    rewrite TrimSuffix_nil, app_nil_r. reflexivity.
Qed.

(** C7, as stated, fails on a path with a ['.'] in a directory name and
    none in the file name: for "a.b/c" the program gives
    "a.b/c_greyscale", the stated rule "a_greyscale.b/c". *)
Lemma C7_counterexample :
  ~ (forall P : list byte, outputFilename P = spec_outputFilename P).
Proof.
  intros H. specialize (H (str "a.b/c")). vm_compute in H. discriminate.
Qed.

Example output_path_dotted_directory :
  outputFilename (str "a.b/c") = str "a.b/c_greyscale" /\
  spec_outputFilename (str "a.b/c") = str "a_greyscale.b/c".
Proof. split; reflexivity. Qed.

(** C8. A format tag other than JPEG, PNG and GIF makes [encodeImage]
    return at once the error "unsupported output format: " followed by the
    tag, with the sink as it was and whatever the serializers are; the
    three tags go to their serializers, JPEG with quality 90. *)
Theorem C8_encode_dispatch (File Img : Type)
    (jpeg_Encode : File -> Img -> Z -> File * option (list byte))
    (png_Encode gif_Encode : File -> Img -> File * option (list byte))
    (w : File) (img : Img) (format : imageFormat) :
  (format <> FormatJPEG -> format <> FormatPNG -> format <> FormatGIF ->
   encodeImage File Img jpeg_Encode png_Encode gif_Encode w img format
   = (w, Some (str "unsupported output format: " ++ format))) /\
  (format = FormatJPEG ->
   encodeImage File Img jpeg_Encode png_Encode gif_Encode w img format
   = jpeg_Encode w img 90) /\
  (format = FormatPNG ->
   encodeImage File Img jpeg_Encode png_Encode gif_Encode w img format
   = png_Encode w img) /\
  (format = FormatGIF ->
   encodeImage File Img jpeg_Encode png_Encode gif_Encode w img format
   = gif_Encode w img).
Proof.
  unfold encodeImage. repeat split.
  - intros H1 H2 H3. repeat case_decide; congruence.
  - intros ->. reflexivity.
  - intros ->. reflexivity.
  - intros ->. reflexivity.
Qed.

Lemma C8_witness :
  encodeImage _ _ write_jpeg write_png write_gif [] blank_pixel
    FormatUnknown
  = ([], Some (str "unsupported output format: unknown")) /\
  encodeImage _ _ write_jpeg write_png write_gif [] blank_pixel
    FormatPNG
  = (str "png", None).
Proof.
  split.
  - apply (C8_encode_dispatch _ _ write_jpeg write_png write_gif []
             blank_pixel FormatUnknown); discriminate.
  - apply (C8_encode_dispatch _ _ write_jpeg write_png write_gif []
             blank_pixel FormatPNG). reflexivity.
Defined.

(** * Further properties *)

(** ** The output file name *)

Section OutputName.

Implicit Types (path d t : list byte).

(** The loop of [filepath.Ext] passes over bytes that are neither ['.']
    nor ['/']. *)
Lemma Ext_loop_skip t : forall d rest,
  (filepath.dot ∉ t) -> (filepath.slash ∉ t) ->
  filepath.Ext_loop (d ++ t ++ rest) (length d + length t)
  = filepath.Ext_loop (d ++ t ++ rest) (length d).
Proof.
  induction t as [|c t IH] using rev_ind; intros d rest Hd Hs.
  - simpl. rewrite Nat.add_0_r. reflexivity.
  - apply not_elem_of_app in Hd as [Hd Hdc]. apply not_elem_of_app in Hs as [Hs Hsc].
    apply not_elem_of_cons in Hdc as [Hdc _]. apply not_elem_of_cons in Hsc as [Hsc _].
    rewrite length_app. simpl length.
    replace (length d + (length t + 1))%nat with (S (length d + length t)) by lia.
    rewrite <- (app_assoc t [c] rest). simpl.
    assert (Hc : (d ++ t ++ c :: rest) !! (length d + length t)%nat = Some c).
    { rewrite app_assoc, <- length_app. apply list_lookup_middle. reflexivity. }
    rewrite Hc. unfold filepath.IsPathSeparator.
    rewrite !bool_decide_eq_false_2 by congruence.
    apply (IH d (c :: rest)); assumption.
Qed.

Lemma Ext_with_dot d t :
  (filepath.dot ∉ t) -> (filepath.slash ∉ t) ->
  filepath.Ext (d ++ filepath.dot :: t) = filepath.dot :: t.
Proof.
  intros Hd Hs. unfold filepath.Ext.
  pose proof (Ext_loop_skip t (d ++ [filepath.dot]) [] Hd Hs) as H.
  rewrite app_nil_r, <- app_assoc in H. simpl in H.
  rewrite length_app in *. simpl length in *.
  replace (length d + S (length t))%nat with (length d + 1 + length t)%nat by lia.
  rewrite H. replace (length d + 1)%nat with (S (length d)) by lia. simpl.
  rewrite list_lookup_middle by reflexivity.
  unfold filepath.IsPathSeparator.
  rewrite bool_decide_eq_false_2 by discriminate.
  rewrite bool_decide_eq_true_2 by reflexivity.
  rewrite drop_app_length. reflexivity.
Qed.

Lemma Ext_without_dot d t :
  (filepath.dot ∉ t) -> (filepath.slash ∉ t) ->
  d = [] \/ (exists d', d = d' ++ [filepath.slash]) ->
  filepath.Ext (d ++ t) = [].
Proof.
  intros Hd Hs Hdir. unfold filepath.Ext.
  pose proof (Ext_loop_skip t d [] Hd Hs) as H. rewrite app_nil_r in H.
  rewrite length_app, H.
  destruct Hdir as [->|[d' ->]]; [reflexivity|].
  rewrite length_app. simpl length.
  replace (length d' + 1)%nat with (S (length d')) by lia. simpl.
  rewrite <- app_assoc. simpl.
  rewrite list_lookup_middle by reflexivity.
  unfold filepath.IsPathSeparator. rewrite bool_decide_eq_true_2 by reflexivity.
  reflexivity.
Qed.

(** The path is its base name followed by its extension. *)
Lemma outputFilename_split path :
  exists base,
    path = base ++ filepath.Ext path /\
    outputFilename path = base ++ str "_greyscale" ++ filepath.Ext path.
Proof.
  unfold outputFilename.
  destruct (Ext_spec path) as [(d & t & HP & _ & _ & HE)|(d & t & HP & _ & _ & _ & HE)];
    rewrite HE.
  - exists d. split; [exact HP|]. rewrite HP at 1. rewrite TrimSuffix_app. reflexivity.
  - exists path. rewrite TrimSuffix_nil, app_nil_r. auto.
Qed.

Lemma greyscale_plain :
  (filepath.dot ∉ str "_greyscale") /\ (filepath.slash ∉ str "_greyscale").
Proof. split; intros H; vm_compute in H; repeat (inversion_clear H as [|? ? ? H0]; rename H0 into H). Qed.

(** The output name is ten bytes longer than the input name. *)
Lemma outputFilename_length (P : list byte) :
  length (outputFilename P) = (length P + 10)%nat.
Proof.
  destruct (outputFilename_split P) as (base & HP & ->).
  rewrite HP at 2. rewrite !length_app. change (length (str "_greyscale")) with 10%nat.
  lia.
Qed.

Lemma outputFilename_differs (P : list byte) : outputFilename P <> P.
Proof. intros Heq. pose proof (outputFilename_length P) as Hlen. rewrite Heq in Hlen. lia. Qed.

Lemma Ext_outputFilename (P : list byte) :
  filepath.Ext (outputFilename P) = filepath.Ext P.
Proof.
  destruct greyscale_plain as [Gd Gs].
  unfold outputFilename.
  destruct (Ext_spec P) as [(d & t & HP & Hd & Hs & HE)|(d & t & HP & Hd & Hs & Hdir & HE)];
    rewrite HE.
  - rewrite HP at 1. rewrite TrimSuffix_app, app_assoc.
    apply Ext_with_dot; assumption.
  - rewrite TrimSuffix_nil, app_nil_r, HP, <- app_assoc.
    apply Ext_without_dot; [| |exact Hdir]; apply not_elem_of_app; auto.
Qed.

End OutputName.

(** X1. The output name is ten bytes longer than the input name, so the
    two names are never the same string. *)
Theorem output_never_input (P : list byte) :
  length (outputFilename P) = (length P + 10)%nat /\ outputFilename P <> P.
Proof.
  assert (Hlen : length (outputFilename P) = (length P + 10)%nat).
  { destruct (outputFilename_split P) as (base & HP & ->).
    rewrite HP at 2. rewrite !length_app. change (length (str "_greyscale")) with 10%nat.
    lia. }
  split; [exact Hlen|]. intros Heq. rewrite Heq in Hlen. lia.
Qed.

(** X2. The output name has the extension of the input name. *)
Theorem output_keeps_extension (P : list byte) :
  filepath.Ext (outputFilename P) = filepath.Ext P.
Proof.
  destruct greyscale_plain as [Gd Gs].
  unfold outputFilename.
  destruct (Ext_spec P) as [(d & t & HP & Hd & Hs & HE)|(d & t & HP & Hd & Hs & Hdir & HE)];
    rewrite HE.
  - rewrite HP at 1. rewrite TrimSuffix_app, app_assoc.
    apply Ext_with_dot; assumption.
  - rewrite TrimSuffix_nil, app_nil_r, HP, <- app_assoc.
    apply Ext_without_dot; [| |exact Hdir]; apply not_elem_of_app; auto.
Qed.

(** X3. Two different input names never give the same output name. *)
Theorem output_injective (P Q : list byte) :
  outputFilename P = outputFilename Q -> P = Q.
Proof.
  intros Heq.
  pose proof (Ext_outputFilename P) as HeP.
  pose proof (Ext_outputFilename Q) as HeQ.
  rewrite Heq, HeQ in HeP.
  destruct (outputFilename_split P) as (bp & HP & HoP).
  destruct (outputFilename_split Q) as (bq & HQ & HoQ).
  rewrite HoP, HoQ, HeP, !app_assoc in Heq.
  apply app_inv_tail in Heq. apply app_inv_tail in Heq.
  rewrite HP, HQ, HeP, Heq. reflexivity.
Qed.

Lemma output_injective_witness : str "photo.jpg" = str "photo.jpg".
Proof. apply (output_injective (str "photo.jpg") (str "photo.jpg")). reflexivity. Defined.

(** X4. The directory of the input is left as it is: for a file name
    without ['/'] behind a directory prefix that is empty or ends in ['/'],
    the output is the prefix followed by the output name of the file
    name. *)
Theorem output_same_directory (dir file : list byte) :
  (filepath.slash ∉ file) ->
  dir = [] \/ (exists d', dir = d' ++ [filepath.slash]) ->
  outputFilename (dir ++ file) = dir ++ outputFilename file.
Proof.
  intros Hfile Hdir. unfold outputFilename.
  destruct (Ext_spec file) as [(d & t & HP & Hd & Hs & HE)|(d & t & HP & Hd & Hs & Hd' & HE)];
    rewrite HE.
  - assert (HE' : filepath.Ext (dir ++ file) = filepath.dot :: t).
    { rewrite HP, app_assoc. apply Ext_with_dot; assumption. }
    rewrite HE'. rewrite HP at 1 2. rewrite TrimSuffix_app.
    rewrite (app_assoc dir d), TrimSuffix_app, <- !app_assoc. reflexivity.
  - assert (Hnil : d = []).
    { destruct Hd' as [->|[d' ->]]; [reflexivity|]. exfalso. apply Hfile.
      rewrite HP. apply elem_of_app. left. apply elem_of_app. right. left. }
    subst d. simpl in HP. subst t.
    rewrite (Ext_without_dot dir file Hd Hs Hdir).
    rewrite !TrimSuffix_nil, !app_nil_r, <- app_assoc. reflexivity.
Qed.

Lemma output_same_directory_witness :
  outputFilename (str "pics/" ++ str "photo.jpg")
  = str "pics/" ++ outputFilename (str "photo.jpg").
Proof.
  apply (output_same_directory (str "pics/") (str "photo.jpg")).
  - intros H. vm_compute in H.
    repeat (inversion_clear H as [|? ? ? H0]; rename H0 into H).
  - right. exists (str "pics"). reflexivity.
Defined.

(** X16. The input name is recovered from the output name: taking off the
    extension, then the suffix "_greyscale", and putting the extension back
    gives the input name. *)
Theorem input_from_output (P : list byte) :
  strings.TrimSuffix
    (strings.TrimSuffix (outputFilename P) (filepath.Ext (outputFilename P)))
    (str "_greyscale")
  ++ filepath.Ext (outputFilename P) = P.
Proof.
  rewrite Ext_outputFilename.
  destruct (outputFilename_split P) as (base & HP & ->).
  rewrite (app_assoc base), !TrimSuffix_app. symmetry. exact HP.
Qed.

(** ** The converted image *)

Section Converted.

(** Two buffers of the same shape with the same pixels are the same. *)
Lemma buffer_ext (p q : image.RGBA.t) :
  buffer_ok p -> buffer_ok q ->
  image.RGBA.Rect p = image.RGBA.Rect q ->
  (forall x y, image.RGBA.RGBAAt p x y = image.RGBA.RGBAAt q x y) ->
  p = q.
Proof.
  intros Hp Hq HR Hat.
  pose proof Hp as (Hwf & Hsp & Hlp). pose proof Hq as (_ & Hsq & Hlq).
  destruct p as [pp sp rp], q as [pq sq rq]. simpl in *. subst rq.
  assert (sp = sq) by congruence. subst sq. subst sp. f_equal.
  apply list_eq. intros i.
  destruct (decide (i < length pp)%nat) as [Hi|Hi].
  2:{ rewrite !lookup_ge_None_2 by lia. reflexivity. }
  assert (Hnn : 0 <= width rp /\ 0 <= height rp)
    by (destruct Hwf; unfold width, height; lia).
  set (w := width rp) in *. set (h := height rp) in *.
  assert (Hw : 0 < w) by nia. assert (Hh : 0 < h) by nia.
  set (j := Z.of_nat i / 4). set (k := Z.of_nat i mod 4).
  assert (Hjk : Z.of_nat i = 4 * j + k) by (apply Z.div_mod; lia).
  assert (Hk : 0 <= k < 4) by (apply Z.mod_pos_bound; lia).
  assert (Hj : 0 <= j < w * h) by (unfold j; split; [apply Z.div_pos; lia|
    apply Z.div_lt_upper_bound; lia]).
  set (yy := j / w). set (xx := j mod w).
  assert (Hxy : j = w * yy + xx) by (apply Z.div_mod; lia).
  assert (Hxx : 0 <= xx < w) by (apply Z.mod_pos_bound; lia).
  assert (Hyy : 0 <= yy < h) by (unfold yy; split; [apply Z.div_pos; lia|
    apply Z.div_lt_upper_bound; nia]).
  set (x := image.X (image.Min rp) + xx). set (y := image.Y (image.Min rp) + yy).
  assert (Hin : image.In (image.mkPoint x y) rp = true).
  { apply In_spec. unfold x, y, w, h, width, height in *. lia. }
  specialize (Hat x y). unfold image.RGBA.RGBAAt in Hat.
  cbn [image.RGBA.Rect] in Hat. rewrite Hin in Hat. cbn [negb] in Hat.
  assert (Hoff : forall pix, image.RGBA.PixOffset (image.RGBA.mk pix (4 * w) rp) x y = 4 * j).
  { intros pix. unfold image.RGBA.PixOffset. simpl. unfold x, y. nia. }
  rewrite ?(Hoff pp), ?(Hoff pq) in Hat.
  destruct (slice4_lookup (image.RGBA.mk pp (4 * w) rp) (4 * j) ltac:(lia) ltac:(simpl; nia))
    as (s0 & s1 & s2 & s3 & E0 & E1 & E2 & E3 & Es).
  destruct (slice4_lookup (image.RGBA.mk pq (4 * w) rp) (4 * j) ltac:(lia) ltac:(simpl; nia))
    as (t0 & t1 & t2 & t3 & F0 & F1 & F2 & F3 & Fs).
  rewrite Es, Fs in Hat. simpl in *. injection Hat as -> -> -> ->.
  assert (Hcase : k = 0 \/ k = 1 \/ k = 2 \/ k = 3) by lia.
  destruct Hcase as [Hc|[Hc|[Hc|Hc]]].
  - replace i with (Z.to_nat (4 * j)) by lia. congruence.
  - replace i with (Z.to_nat (4 * j) + 1)%nat by lia. congruence.
  - replace i with (Z.to_nat (4 * j) + 2)%nat by lia. congruence.
  - replace i with (Z.to_nat (4 * j) + 3)%nat by lia. congruence.
Qed.

Lemma grey_color_RGBA (g a : uint8) :
  grey_color (color.InRGBA (color.mkRGBA g g g a)) = color.mkRGBA g g g a.
Proof. unfold grey_color. simpl. rewrite grey_of_diag. reflexivity. Qed.

Lemma grey_color_grey (c : color.Color) :
  color.R (grey_color c) = color.G (grey_color c) /\
  color.G (grey_color c) = color.B (grey_color c).
Proof. unfold grey_color. destruct (color.assert_RGBA _); simpl; auto. Qed.

(** The result of a conversion, as an image, has the size of the source. *)
Lemma Size_converted (src : image.Image) (out : image.RGBA.t) :
  convertible src ->
  image.RGBA.Rect out
  = image.mkRectangle (image.mkPoint 0 0)
      (image.mkPoint (image.X (image.Size (image.Bounds src)))
                     (image.Y (image.Size (image.Bounds src)))) ->
  image.Size (image.Bounds (RGBA_Image out)) = image.Size (image.Bounds src).
Proof.
  intros (Hw & Hh & _) HR.
  destruct (Size_int (image.Bounds src)) as [Hwi Hhi].
  change (image.Bounds (RGBA_Image out)) with (image.RGBA.Rect out). rewrite HR.
  unfold image.Size at 1, image.Dx at 1, image.Dy at 1.
  cbn [image.X image.Y image.Min image.Max].
  rewrite !Z.sub_0_r, !int_wrap_small by assumption. reflexivity.
Qed.

(** X5. Converting twice is converting once: for a source whose buffer
    can be allocated, the conversion of the result (as an image) is the
    result itself, byte for byte. *)
Theorem toGreyscale_idempotent (src : image.Image) :
  convertible src ->
  exists out,
    toGreyscale src = Some out /\
    toGreyscale (RGBA_Image out) = Some out.
Proof.
  intros Hc.
  destruct (toGreyscale_spec src Hc) as (out & Hrun & HR & HS & Hl & Hok & Hskip & Hat).
  exists out. split; [exact Hrun|].
  pose proof (Size_converted src out Hc HR) as Hsize.
  assert (Hc' : convertible (RGBA_Image out)) by (unfold convertible; rewrite Hsize; exact Hc).
  destruct (toGreyscale_spec (RGBA_Image out) Hc')
    as (out2 & Hrun2 & HR2 & HS2 & Hl2 & Hok2 & Hskip2 & Hat2).
  rewrite Hrun2. f_equal. rewrite Hsize in HR2, HS2, Hl2, Hok2, Hskip2.
  destruct Hc as (Hw & Hh & Hc1 & Hc2). unfold maxAlloc in Hc2.
  destruct (decide (image.X (image.Size (image.Bounds src)) = 0 \/
                    image.Y (image.Size (image.Bounds src)) = 0)) as [H0|H0].
  { rewrite Hskip2, Hskip by exact H0. reflexivity. }
  assert (H4w : 4 * image.X (image.Size (image.Bounds src)) < 2 ^ 63) by nia.
  apply buffer_ext; [exact (Hok2 H4w) | exact (Hok H4w) | congruence |].
  intros x y. rewrite Hat2, Hat.
  rewrite (bool_decide_ext (sampled (RGBA_Image out) x y) (sampled src x y))
    by (unfold sampled; rewrite Hsize; reflexivity).
  case_bool_decide as Hs; [|reflexivity].
  f_equal. cbn [image.At RGBA_Image]. unfold RGBA_At.
  rewrite Hat, bool_decide_eq_true_2 by exact Hs.
  destruct (grey_color_grey (image.At src x y)) as [H1 H2].
  destruct (grey_color (image.At src x y)) as [r g b a]. simpl in *. subst.
  apply grey_color_RGBA.
Qed.

Lemma toGreyscale_idempotent_witness :
  exists out,
    toGreyscale two_pixels = Some out /\
    toGreyscale (RGBA_Image out) = Some out.
Proof. apply (toGreyscale_idempotent two_pixels); vm_compute; intuition congruence. Defined.

(** X6. For a source whose buffer can be allocated, every read of the
    result outside [0 <= x < width], [0 <= y < height] is transparent
    black; so a source without pixels (width or height zero) gives a result
    that is transparent black everywhere. *)
Theorem toGreyscale_blank_outside (src : image.Image) :
  convertible src ->
  exists out,
    toGreyscale src = Some out /\
    (forall x y, ~ sampled src x y ->
       image.RGBA.RGBAAt out x y = Some (color.mkRGBA x00 x00 x00 x00)) /\
    (image.X (image.Size (image.Bounds src)) = 0 \/
     image.Y (image.Size (image.Bounds src)) = 0 ->
     forall x y, image.RGBA.RGBAAt out x y = Some (color.mkRGBA x00 x00 x00 x00)).
Proof.
  intros Hc.
  destruct (toGreyscale_spec src Hc) as (out & Hrun & _ & _ & _ & _ & _ & Hat).
  exists out. split; [exact Hrun|]. split.
  - intros x y Hn. rewrite Hat, bool_decide_eq_false_2 by exact Hn. reflexivity.
  - intros Hempty x y. rewrite Hat, bool_decide_eq_false_2; [reflexivity|].
    unfold sampled. lia.
Qed.

Lemma toGreyscale_blank_outside_witness :
  (exists out,
     toGreyscale two_pixels = Some out /\
     image.RGBA.RGBAAt out 2 0 = Some (color.mkRGBA x00 x00 x00 x00)) /\
  (exists out,
     toGreyscale empty_image = Some out /\
     forall x y, image.RGBA.RGBAAt out x y = Some (color.mkRGBA x00 x00 x00 x00)).
Proof.
  split.
  - destruct (toGreyscale_blank_outside two_pixels) as (out & Hrun & Hout & _);
      [vm_compute; intuition congruence|].
    exists out. split; [exact Hrun|]. apply Hout. vm_compute. intuition congruence.
  - destruct (toGreyscale_blank_outside empty_image) as (out & Hrun & _ & Hall);
      [vm_compute; intuition congruence|].
    exists out. split; [exact Hrun|]. apply Hall. left. reflexivity.
Defined.

(** X7. The result is a well-shaped [image.RGBA]: for a source of width w
    and height h whose buffer can be allocated, its rectangle is
    (0, 0)-(w, h), its buffer holds exactly 4 * w * h bytes, and its stride
    is the [int] 4 * w, which is the number 4 * w when the image has a
    row. *)
Theorem toGreyscale_buffer_shape (src : image.Image) :
  convertible src ->
  exists out,
    toGreyscale src = Some out /\
    image.RGBA.Rect out
    = image.mkRectangle (image.mkPoint 0 0) (image.Size (image.Bounds src)) /\
    image.RGBA.Stride out = int_wrap (4 * image.X (image.Size (image.Bounds src))) /\
    (0 < image.Y (image.Size (image.Bounds src)) ->
     image.RGBA.Stride out = 4 * image.X (image.Size (image.Bounds src))) /\
    Z.of_nat (length (image.RGBA.Pix out))
    = 4 * image.X (image.Size (image.Bounds src)) * image.Y (image.Size (image.Bounds src)).
Proof.
  intros Hc.
  destruct (toGreyscale_spec src Hc) as (out & Hrun & HR & HS & Hl & Hok & _ & _).
  exists out. split; [exact Hrun|]. split; [exact HR|]. split; [exact HS|].
  split; [|exact Hl].
  intros Hh. rewrite HS. apply int_wrap_small.
  destruct Hc as (Hw & _ & _ & Hc2). unfold is_int. unfold maxAlloc in Hc2. nia.
Qed.

Lemma toGreyscale_buffer_shape_witness :
  exists out,
    toGreyscale two_pixels = Some out /\
    image.RGBA.Rect out
    = image.mkRectangle (image.mkPoint 0 0) (image.Size (image.Bounds two_pixels)) /\
    image.RGBA.Stride out = int_wrap (4 * image.X (image.Size (image.Bounds two_pixels))) /\
    (0 < image.Y (image.Size (image.Bounds two_pixels)) ->
     image.RGBA.Stride out = 4 * image.X (image.Size (image.Bounds two_pixels))) /\
    Z.of_nat (length (image.RGBA.Pix out))
    = 4 * image.X (image.Size (image.Bounds two_pixels))
      * image.Y (image.Size (image.Bounds two_pixels)).
Proof. apply (toGreyscale_buffer_shape two_pixels); vm_compute; intuition congruence. Defined.

(** X18. When [toGreyscale] returns: for a source of width w and height h
    at least zero, exactly when the buffer can be allocated; it panics (in
    [image.NewRGBA]) exactly when the row length [4 * w] reaches [2^64] or
    the buffer length [4 * w * h] exceeds [maxAlloc]. *)
Theorem toGreyscale_returns_iff (src : image.Image) :
  0 <= image.X (image.Size (image.Bounds src)) ->
  0 <= image.Y (image.Size (image.Bounds src)) ->
  ((exists out, toGreyscale src = Some out) <-> convertible src) /\
  (toGreyscale src = None <->
   2 ^ 64 <= 4 * image.X (image.Size (image.Bounds src)) \/
   maxAlloc < 4 * image.X (image.Size (image.Bounds src))
              * image.Y (image.Size (image.Bounds src))).
Proof.
  intros Hw Hh.
  assert (Hiff : (exists out, toGreyscale src = Some out) <-> convertible src).
  { split.
    - intros [out Hrun]. destruct (decide (convertible src)) as [Hc|Hn]; [exact Hc|].
      rewrite (toGreyscale_panics src Hw Hh Hn) in Hrun. discriminate.
    - intros Hc. destruct (toGreyscale_spec src Hc) as (out & Hrun & _). eauto. }
  split; [exact Hiff|].
  unfold convertible, allocatable in Hiff. split.
  - intros Hnone.
    destruct (Z.lt_ge_cases (4 * image.X (image.Size (image.Bounds src))) (2 ^ 64)); [|auto].
    destruct (Z.le_gt_cases (4 * image.X (image.Size (image.Bounds src))
                             * image.Y (image.Size (image.Bounds src))) maxAlloc); [|auto].
    destruct Hiff as [_ Hsome]. destruct Hsome as [out Hrun]; [auto|]. congruence.
  - intros Hbig. destruct (toGreyscale src) as [out|] eqn:Hrun; [|reflexivity].
    destruct Hiff as [Hsome _]. destruct Hsome as (_ & _ & H1 & H2); [eauto|]. lia.
Qed.

Lemma toGreyscale_returns_iff_witness :
  (((exists out, toGreyscale two_pixels = Some out) <-> convertible two_pixels) /\
   (toGreyscale two_pixels = None <->
    2 ^ 64 <= 4 * image.X (image.Size (image.Bounds two_pixels)) \/
    maxAlloc < 4 * image.X (image.Size (image.Bounds two_pixels))
               * image.Y (image.Size (image.Bounds two_pixels)))) /\
  (((exists out, toGreyscale large_image = Some out) <-> convertible large_image) /\
   (toGreyscale large_image = None <->
    2 ^ 64 <= 4 * image.X (image.Size (image.Bounds large_image)) \/
    maxAlloc < 4 * image.X (image.Size (image.Bounds large_image))
               * image.Y (image.Size (image.Bounds large_image)))).
Proof.
  split.
  - apply (toGreyscale_returns_iff two_pixels); vm_compute; congruence.
  - apply (toGreyscale_returns_iff large_image); vm_compute; congruence.
Defined.

End Converted.

(** X17. Writing a pixel and reading it back: on a buffer of the right
    shape, [Set] of an [RGBA] colour at a point of the rectangle does not
    panic, the colour is read back at that point by [RGBAAt], and every
    other pixel reads as before; [Set] at a point outside the rectangle
    changes nothing. *)
Theorem Set_then_RGBAAt (p : image.RGBA.t) (x y : Z) (c : color.RGBA) :
  buffer_ok p ->
  exists p',
    image.RGBA.Set_ p x y (color.InRGBA c) = Some p' /\
    (image.In (image.mkPoint x y) (image.RGBA.Rect p) = true ->
     image.RGBA.RGBAAt p' x y = Some c /\
     forall x' y', ~ (x' = x /\ y' = y) ->
       image.RGBA.RGBAAt p' x' y' = image.RGBA.RGBAAt p x' y') /\
    (image.In (image.mkPoint x y) (image.RGBA.Rect p) = false -> p' = p).
Proof.
  intros Hok. destruct (Set_spec p x y c Hok) as (p' & Hset & _ & _ & Hat).
  exists p'. split; [exact Hset|]. split.
  - intros Hin. split.
    + rewrite Hat, Hin, bool_decide_eq_true_2 by auto. reflexivity.
    + intros x' y' Hne. rewrite Hat, bool_decide_eq_false_2 by exact Hne.
      rewrite andb_false_r. reflexivity.
  - intros Hin. unfold image.RGBA.Set_ in Hset. rewrite Hin in Hset.
    simpl in Hset. congruence.
Qed.

Lemma Set_then_RGBAAt_witness :
  exists p',
    image.RGBA.Set_ blank_2x2 1 1 (color.InRGBA (color.mkRGBA x01 x02 x03 x04)) = Some p' /\
    (image.In (image.mkPoint 1 1) (image.RGBA.Rect blank_2x2) = true ->
     image.RGBA.RGBAAt p' 1 1 = Some (color.mkRGBA x01 x02 x03 x04) /\
     forall x' y', ~ (x' = 1 /\ y' = 1) ->
       image.RGBA.RGBAAt p' x' y' = image.RGBA.RGBAAt blank_2x2 x' y') /\
    (image.In (image.mkPoint 1 1) (image.RGBA.Rect blank_2x2) = false -> p' = blank_2x2).
Proof.
  apply (Set_then_RGBAAt blank_2x2 1 1 (color.mkRGBA x01 x02 x03 x04)).
  vm_compute. intuition congruence.
Defined.

(** [blank_2x2] and [blank_pixel] are what [image.NewRGBA] makes. *)
Example NewRGBA_blank :
  image.NewRGBA (rect 0 0 2 2) = Some blank_2x2 /\
  image.NewRGBA (rect 0 0 1 1) = Some blank_pixel.
Proof. split; vm_compute; reflexivity. Qed.

(** ** The grey value lies between the channels *)

Section Between.

(** Every sum of three products is at least [m - 0.5] for one of its three
    channel values [m]: checked on all 256^3 triples. *)
Lemma low_check_ok :
  forallb (fun R : float64 * float64 =>
    forallb (fun G : float64 * float64 =>
      let s1 := (fst R + fst G)%float in
      let l1 := fmin (snd R) (snd G) in
      forallb (fun B : float64 * float64 =>
        let s := (s1 + fst B)%float in
        (l1 <=? s)%float || (snd B <=? s)%float)
      low_blue) low_green) low_red = true.
Proof. vm_compute. reflexivity. Qed.

Lemma lows_eq :
  low_red = low_tab c_red /\ low_green = low_tab c_green /\ low_blue = low_tab c_blue.
Proof. repeat split; vm_compute; reflexivity. Qed.

Lemma below_exact_all : forallb below_exact chans = true.
Proof. vm_compute. reflexivity. Qed.

Lemma low_tab_elem c (b : uint8) :
  List.In ((c * float64_of_uint8 b)%float, half_below (Z_of_uint8 b)) (low_tab c).
Proof.
  unfold low_tab. apply (in_map (fun n => ((c * float64_of_Z n)%float, half_below n))).
  apply list_elem_of_In, elem_of_chans, Z_of_uint8_range.
Qed.

Lemma SFleb_finite_scaled m e m' e' :
  valid_binary (S754_finite false m e) = true ->
  valid_binary (S754_finite false m' e') = true ->
  SFleb (S754_finite false m e) (S754_finite false m' e') = true ->
  Z.pos m * 2 ^ (e + 1074) <= Z.pos m' * 2 ^ (e' + 1074).
Proof.
  intros Hv Hv' Hle.
  destruct (SFltb (S754_finite false m e) (S754_finite false m' e')) eqn:Hlt.
  - apply Z.lt_le_incl, SFltb_finite_scaled; assumption.
  - unfold SFleb, SFltb, SFcompare in *.
    destruct (Z.compare_spec e e') as [Heq|Hee|Hee]; try discriminate.
    subst e'. destruct (Pos.compare_cont Eq m m') eqn:Hc; try discriminate.
    change (Pos.compare_cont Eq m m') with (Pos.compare m m') in Hc.
    apply Pos.compare_eq in Hc. subst m'. lia.
Qed.

Lemma low_check_sound (R G B : float64 * float64) :
  List.In R low_red -> List.In G low_green -> List.In B low_blue ->
  (fmin (snd R) (snd G) <=? fst R + fst G + fst B)%float
  || (snd B <=? fst R + fst G + fst B)%float = true.
Proof.
  intros HR HG HB. pose proof low_check_ok as H.
  apply (forallb_elim _ _ R) in H; [|exact HR].
  apply (forallb_elim _ _ G) in H; [|exact HG].
  apply (forallb_elim _ _ B) in H; [|exact HB].
  exact H.
Qed.

(** The luminosity sum is zero or a positive finite number. *)
Lemma luminosity_finite (R G B : uint8) :
  match Prim2SF (luminosity R G B) with
  | S754_zero _ | S754_finite false _ _ => True
  | _ => False
  end.
Proof.
  destruct tabs_eq as (Er & Eg & Eb).
  pose proof (lum_tab_elem c_red R) as HR. rewrite <- Er in HR.
  pose proof (lum_tab_elem c_green G) as HG. rewrite <- Eg in HG.
  pose proof (lum_tab_elem c_blue B) as HB. rewrite <- Eb in HB.
  destruct (lum_check_sound _ _ _ HR HG HB) as [Hge Hlt]. clear HR HG HB Er Eg Eb.
  change (sf_nonneg (Prim2SF (luminosity R G B)) = true) in Hge.
  assert (Hb : exists b, (luminosity R G B <? b)%float = true)
    by (destruct Hlt; eauto).
  destruct Hb as [b Hb]. rewrite ltb_spec in Hb.
  destruct (Prim2SF (luminosity R G B)) as [s|s| |s m e]; try exact I.
  - destruct s; [discriminate|]. unfold SFltb, SFcompare in Hb.
    destruct (Prim2SF b) as [| [] | |]; discriminate.
  - discriminate.
  - destruct s; [discriminate | exact I].
Qed.

(** The grey value of three channels is not below the least and not above
    the greatest of them. *)
Lemma grey_of_between (R G B : uint8) :
  Z.min (Z_of_uint8 R) (Z.min (Z_of_uint8 G) (Z_of_uint8 B))
  <= Z_of_uint8 (grey_of R G B)
  <= Z.max (Z_of_uint8 R) (Z.max (Z_of_uint8 G) (Z_of_uint8 B)).
Proof.
  pose proof (luminosity_rounded R G B) as [[Hn0 Hmax] [_ Hup]].
  rewrite <- grey_of_exact in Hn0, Hmax, Hup.
  split; [|exact Hmax].
  destruct lows_eq as (Er & Eg & Eb).
  pose proof (low_tab_elem c_red R) as HR. rewrite <- Er in HR.
  pose proof (low_tab_elem c_green G) as HG. rewrite <- Eg in HG.
  pose proof (low_tab_elem c_blue B) as HB. rewrite <- Eb in HB.
  pose proof (low_check_sound _ _ _ HR HG HB) as H. clear HR HG HB Er Eg Eb.
  change (((fmin (half_below (Z_of_uint8 R)) (half_below (Z_of_uint8 G))
            <=? luminosity R G B)%float
           || (half_below (Z_of_uint8 B) <=? luminosity R G B)%float) = true) in H.
  assert (Hsel : exists k, (k = Z_of_uint8 R \/ k = Z_of_uint8 G \/ k = Z_of_uint8 B) /\
            (half_below k <=? luminosity R G B)%float = true).
  { apply orb_true_iff in H as [H|H]; [|eauto 6]. unfold fmin in H.
    destruct (half_below (Z_of_uint8 R) <? half_below (Z_of_uint8 G))%float; eauto 6. }
  destruct Hsel as (k & Hk & Hle).
  assert (Hkr : 0 <= k < 256)
    by (destruct Hk as [->|[->| ->]]; apply Z_of_uint8_range).
  assert (Hgoal : k <= Z_of_uint8 (grey_of R G B)).
  { pose proof (forallb_elim _ _ k below_exact_all) as Hex.
    rewrite <- list_elem_of_In, elem_of_chans in Hex. specialize (Hex Hkr).
    unfold below_exact in Hex. apply orb_true_iff in Hex as [Hex|Hex]; [lia|].
    rewrite leb_spec in Hle.
    pose proof (Prim2SF_valid (half_below k)) as Hvk.
    pose proof (Prim2SF_valid (luminosity R G B)) as Hvs.
    pose proof (luminosity_finite R G B) as Hfin.
    unfold float64_scaled in Hup.
    destruct (Prim2SF (half_below k)) as [| | |[] my ey]; try discriminate.
    apply Z.eqb_eq in Hex.
    destruct (Prim2SF (luminosity R G B)) as [s|s| |s m e]; try contradiction.
    - discriminate.
    - destruct s; [contradiction|].
      pose proof (SFleb_finite_scaled _ _ _ _ Hvk Hvs Hle) as Hval.
      unfold SFscaled, cond_Zopp in Hup.
      assert (H1074 : 0 < 2 ^ 1074) by (apply Z.pow_pos_nonneg; lia).
      nia. }
  destruct Hk as [->|[->| ->]]; lia.
Qed.

End Between.

(** ** Pixels by kind of source colour *)

Section SourceColours.

(** X8. A converted pixel is never darker than the darkest and never
    brighter than the brightest of the three normalized source channels. *)
Theorem grey_between_channels (src : image.Image) (x y : Z) :
  convertible src ->
  sampled src x y ->
  exists out o g,
    toGreyscale src = Some out /\
    color.assert_RGBA (color.RGBAModel_Convert (image.At src x y)) = Some o /\
    image.RGBA.RGBAAt out x y = Some (color.mkRGBA g g g (color.A o)) /\
    Z.min (Z_of_uint8 (color.R o)) (Z.min (Z_of_uint8 (color.G o)) (Z_of_uint8 (color.B o)))
    <= Z_of_uint8 g
    <= Z.max (Z_of_uint8 (color.R o)) (Z.max (Z_of_uint8 (color.G o)) (Z_of_uint8 (color.B o))).
Proof.
  intros Hc Hs. destruct (sampled_pixel src x y Hc Hs) as (out & o & Hrun & Ho & Hat).
  exists out, o, (grey_of (color.R o) (color.G o) (color.B o)).
  split; [exact Hrun|]. split; [exact Ho|]. split; [exact Hat|].
  apply grey_of_between.
Qed.

Lemma grey_between_channels_witness :
  exists out o g,
    toGreyscale two_pixels = Some out /\
    color.assert_RGBA (color.RGBAModel_Convert (image.At two_pixels 0 0)) = Some o /\
    image.RGBA.RGBAAt out 0 0 = Some (color.mkRGBA g g g (color.A o)) /\
    Z.min (Z_of_uint8 (color.R o)) (Z.min (Z_of_uint8 (color.G o)) (Z_of_uint8 (color.B o)))
    <= Z_of_uint8 g
    <= Z.max (Z_of_uint8 (color.R o)) (Z.max (Z_of_uint8 (color.G o)) (Z_of_uint8 (color.B o))).
Proof.
  apply (grey_between_channels two_pixels 0 0); vm_compute; intuition congruence.
Defined.

(** X9. A pixel of a grey-model source ([color.Gray], as a greyscale JPEG
    decodes to) keeps its luminance: the output pixel is (Y, Y, Y, 255). *)
Theorem gray_source_pixel (src : image.Image) (x y : Z) (Y : uint8) :
  convertible src ->
  sampled src x y ->
  image.At src x y = color.InGray Y ->
  exists out,
    toGreyscale src = Some out /\
    image.RGBA.RGBAAt out x y = Some (color.mkRGBA Y Y Y xff).
Proof.
  intros Hcv Hs Hc. destruct (sampled_pixel src x y Hcv Hs) as (out & o & Hrun & Ho & Hat).
  exists out. split; [exact Hrun|].
  rewrite Hc, rgbaModel_canonical in Ho. simpl in Ho.
  rewrite !dup8_shiftr in Ho. injection Ho as <-. simpl in Hat.
  rewrite grey_of_diag in Hat. exact Hat.
Qed.

Lemma gray_source_pixel_witness :
  exists out,
    toGreyscale (image.mkImage (rect 0 0 1 1) (fun _ _ => color.InGray (uint8_of_Z 90)))
    = Some out /\
    image.RGBA.RGBAAt out 0 0
    = Some (color.mkRGBA (uint8_of_Z 90) (uint8_of_Z 90) (uint8_of_Z 90) xff).
Proof.
  apply (gray_source_pixel
           (image.mkImage (rect 0 0 1 1) (fun _ _ => color.InGray (uint8_of_Z 90))) 0 0).
  - vm_compute. intuition congruence.
  - vm_compute. intuition congruence.
  - reflexivity.
Defined.

Lemma NRGBA_opaque (R G B : uint8) :
  color.assert_RGBA (color.RGBAModel_Convert (color.InNRGBA (color.mkNRGBA R G B xff)))
  = Some (color.mkRGBA R G B xff).
Proof.
  rewrite rgbaModel_canonical. simpl. rewrite !dup8_eq.
  change (Z_of_uint8 xff) with 255.
  assert (H : forall b : uint8,
            uint8_of_Z (Z.shiftr (wrap32 (257 * Z_of_uint8 b * 255) / 255) 8) = b).
  { intros b. pose proof (Z_of_uint8_range b). unfold wrap32.
    rewrite Z.mod_small by (change (2 ^ 32) with 4294967296; lia).
    rewrite Z.div_mul by lia. rewrite <- dup8_eq. apply dup8_shiftr. }
  rewrite !H. reflexivity.
Qed.

Lemma NRGBA_transparent (R G B : uint8) :
  color.assert_RGBA (color.RGBAModel_Convert (color.InNRGBA (color.mkNRGBA R G B x00)))
  = Some (color.mkRGBA x00 x00 x00 x00).
Proof.
  rewrite rgbaModel_canonical. simpl. rewrite !dup8_eq.
  change (Z_of_uint8 x00) with 0. rewrite !Z.mul_0_r. reflexivity.
Qed.

(** X10. A pixel of a non-premultiplied source ([color.NRGBA], as a PNG
    with alpha decodes to): when opaque, its stored channels are the ones
    weighted, and the result is opaque; when fully transparent, the result
    is (0, 0, 0, 0) whatever colour it stored. *)
Theorem nrgba_source_pixel (src : image.Image) (x y : Z) (R G B A : uint8) :
  convertible src ->
  sampled src x y ->
  image.At src x y = color.InNRGBA (color.mkNRGBA R G B A) ->
  exists out,
    toGreyscale src = Some out /\
    (A = xff ->
     image.RGBA.RGBAAt out x y
     = Some (color.mkRGBA (grey_of R G B) (grey_of R G B) (grey_of R G B) xff)) /\
    (A = x00 ->
     image.RGBA.RGBAAt out x y = Some (color.mkRGBA x00 x00 x00 x00)).
Proof.
  intros Hcv Hs Hc. destruct (sampled_pixel src x y Hcv Hs) as (out & o & Hrun & Ho & Hat).
  exists out. split; [exact Hrun|]. rewrite Hc in Ho. split; intros ->.
  - rewrite NRGBA_opaque in Ho. injection Ho as <-. exact Hat.
  - rewrite NRGBA_transparent in Ho. injection Ho as <-. simpl in Hat.
    rewrite grey_of_diag in Hat. exact Hat.
Qed.

Lemma nrgba_source_pixel_witness :
  (exists out,
     toGreyscale two_pixels_nrgba = Some out /\
     (xff = xff ->
      image.RGBA.RGBAAt out 0 0
      = Some (color.mkRGBA (grey_of (uint8_of_Z 200) (uint8_of_Z 100) (uint8_of_Z 50))
                (grey_of (uint8_of_Z 200) (uint8_of_Z 100) (uint8_of_Z 50))
                (grey_of (uint8_of_Z 200) (uint8_of_Z 100) (uint8_of_Z 50)) xff)) /\
     (xff = x00 ->
      image.RGBA.RGBAAt out 0 0 = Some (color.mkRGBA x00 x00 x00 x00))) /\
  (exists out,
     toGreyscale translucent_pixels = Some out /\
     (x00 = xff ->
      image.RGBA.RGBAAt out 1 0
      = Some (color.mkRGBA (grey_of (uint8_of_Z 10) (uint8_of_Z 20) (uint8_of_Z 30))
                (grey_of (uint8_of_Z 10) (uint8_of_Z 20) (uint8_of_Z 30))
                (grey_of (uint8_of_Z 10) (uint8_of_Z 20) (uint8_of_Z 30)) xff)) /\
     (x00 = x00 ->
      image.RGBA.RGBAAt out 1 0 = Some (color.mkRGBA x00 x00 x00 x00))).
Proof.
  split.
  - apply (nrgba_source_pixel two_pixels_nrgba 0 0
             (uint8_of_Z 200) (uint8_of_Z 100) (uint8_of_Z 50) xff).
    + vm_compute. intuition congruence.
    + vm_compute. intuition congruence.
    + reflexivity.
  - apply (nrgba_source_pixel translucent_pixels 1 0
             (uint8_of_Z 10) (uint8_of_Z 20) (uint8_of_Z 30) x00).
    + vm_compute. intuition congruence.
    + vm_compute. intuition congruence.
    + reflexivity.
Defined.

End SourceColours.

(** ** The program *)

Section Runs.

Variable File : Type.
Variable os_Open : list byte -> File + list byte.
Variable image_Decode : File -> (image.Image * list byte) + list byte.
Variable os_Create : list byte -> File + list byte.
Variable jpeg_Encode : File -> image.RGBA.t -> Z -> File * option (list byte).
Variable png_Encode : File -> image.RGBA.t -> File * option (list byte).
Variable gif_Encode : File -> image.RGBA.t -> File * option (list byte).

#[local] Notation "'run'" :=
  (main File os_Open image_Decode os_Create jpeg_Encode png_Encode gif_Encode).
#[local] Notation "'encode'" :=
  (encodeImage File image.RGBA.t jpeg_Encode png_Encode gif_Encode).
#[local] Notation "'succeeds'" :=
  (all_succeed File os_Open image_Decode os_Create jpeg_Encode png_Encode gif_Encode).

Lemma originalFormat_of_Some formatStr format :
  originalFormat_of formatStr = Some format ->
  format = formatStr /\
  (format = FormatJPEG \/ format = FormatPNG \/ format = FormatGIF).
Proof.
  unfold originalFormat_of. repeat case_decide; intros Hf; try discriminate;
    injection Hf as <-; subst; auto.
Qed.

(** The cases of a run. *)
Lemma run_cases (Args : list (list byte)) :
  (Args !! 1%nat = None /\ run Args = usage) \/
  (exists name, Args !! 1%nat = Some name /\
     ((exists err, os_Open name = inr err /\
         run Args = [Open name;
           Fatalf (str "Error opening input file " ++ name ++ str ": " ++ err)]) \/
      (exists inputFile, os_Open name = inl inputFile /\
         ((exists err, image_Decode inputFile = inr err /\
             run Args = [Open name;
               Fatalf (str "Error decoding image " ++ name ++ str ": " ++ err)]) \/
          (exists img formatStr, image_Decode inputFile = inl (img, formatStr) /\
             ((originalFormat_of formatStr = None /\
               run Args = [Open name;
                 Fatalf (str "Unsupported input image format: " ++ formatStr
                         ++ str ". Supported formats are JPEG, PNG, GIF.")]) \/
              (exists format,
                 originalFormat_of formatStr = Some format /\
                 ((toGreyscale img = None /\
                   run Args = [Open name;
                     Stdout (str "Converting " ++ name ++ str " (format: " ++ format
                             ++ str ") to greyscale (Luminosity Method)..." ++ newline);
                     Close name;
                     Panic]) \/
                  (exists grey, toGreyscale img = Some grey /\
                 ((exists err, os_Create (outputFilename name) = inr err /\
                     run Args = [Open name;
                       Stdout (str "Converting " ++ name ++ str " (format: " ++ format
                               ++ str ") to greyscale (Luminosity Method)..." ++ newline);
                       Stdout (str "Conversion complete." ++ newline);
                       Create (outputFilename name);
                       Fatalf (str "Error creating output file " ++ outputFilename name
                               ++ str ": " ++ err)]) \/
                  (exists out, os_Create (outputFilename name) = inl out /\
                     ((exists err, snd (encode out grey format) = Some err /\
                         run Args = [Open name;
                           Stdout (str "Converting " ++ name ++ str " (format: " ++ format
                                   ++ str ") to greyscale (Luminosity Method)..." ++ newline);
                           Stdout (str "Conversion complete." ++ newline);
                           Create (outputFilename name);
                           Encode (outputFilename name) format;
                           Fatalf (str "Error encoding greyscale image to "
                                   ++ outputFilename name ++ str " (format: " ++ format
                                   ++ str "): " ++ err)]) \/
                      (snd (encode out grey format) = None /\
                       run Args = [Open name;
                         Stdout (str "Converting " ++ name ++ str " (format: " ++ format
                                 ++ str ") to greyscale (Luminosity Method)..." ++ newline);
                         Stdout (str "Conversion complete." ++ newline);
                         Create (outputFilename name);
                         Encode (outputFilename name) format;
                         Stdout (str "Greyscale image saved as " ++ outputFilename name
                                 ++ newline);
                         Close (outputFilename name);
                         Close name;
                         Exit 0]))))))))))))).
Proof.
  destruct Args as [|a [|name rest]]; [left; auto | left; auto |].
  right. exists name. split; [reflexivity|]. unfold main.
  destruct (os_Open name) as [inputFile|err]; [right | left; eauto].
  exists inputFile. split; [reflexivity|].
  destruct (image_Decode inputFile) as [[img formatStr]|err]; [right | left; eauto].
  exists img, formatStr. split; [reflexivity|].
  destruct (originalFormat_of formatStr) as [format|]; [right | left; auto].
  exists format. split; [reflexivity|].
  destruct (toGreyscale img) as [grey|]; [right | left; auto].
  exists grey. split; [reflexivity|].
  destruct (os_Create (outputFilename name)) as [out|err]; [right | left; eauto].
  exists out. split; [reflexivity|].
  destruct (snd (encode out grey format)) as [err|]; [left; eauto | right; auto].
Qed.

Ltac run_cases Args :=
  let name := fresh "name" in
  destruct (run_cases Args)
    as [ [Hnone Hrun]
       | (name & Hname &
          [ (err & Hopen & Hrun)
          | (inputFile & Hopen &
             [ (err & Hdec & Hrun)
             | (img & formatStr & Hdec &
                [ [Hfmt Hrun]
                | (format & Hfmt &
                   [ [Hgrey Hrun]
                   | (grey & Hgrey &
                      [ (err & Hcre & Hrun)
                      | (out & Hcre & [ (err & Henc & Hrun) | [Henc Hrun] ]) ]) ]) ]) ]) ]) ];
  rewrite Hrun in *; clear Hrun.


(** X12. Without an argument the program prints its two usage lines, exits
    with status 1 and opens or creates no file. *)
Theorem main_without_argument (Args : list (list byte)) :
  (length Args < 2)%nat ->
  run Args = usage /\
  exit_status (run Args) = Some 1 /\
  forall p, (Open p ∉ run Args) /\ (Create p ∉ run Args).
Proof.
  intros Hlen. destruct Args as [|a [|b rest]]; simpl in Hlen; try lia;
    (split; [reflexivity|]; split; [reflexivity|]);
    intros p; split; intros H; apply list_elem_of_In in H; simpl in H;
    intuition discriminate.
Qed.

(** X13. The output file is created only after the input was opened and
    decoded to one of the three formats; its path is the output name of the
    argument, which is never the argument itself. *)
Theorem main_creates_after_decode (Args : list (list byte)) (p : list byte) :
  Create p ∈ run Args ->
  exists name inputFile img formatStr,
    Args !! 1%nat = Some name /\
    os_Open name = inl inputFile /\
    image_Decode inputFile = inl (img, formatStr) /\
    (formatStr = str "jpeg" \/ formatStr = str "png" \/ formatStr = str "gif") /\
    p = outputFilename name /\
    p <> name.
Proof.
  intros H. apply list_elem_of_In in H.
  run_cases Args; simpl in H; try (intuition discriminate);
    (exists name, inputFile, img, formatStr;
     destruct (originalFormat_of_Some _ _ Hfmt) as [-> Hf];
     assert (Hp : p = outputFilename name)
       by (intuition (try discriminate); congruence);
     repeat (split; [assumption|]);
     rewrite Hp; apply outputFilename_differs).
Qed.

(** X14. The serializer that [main] reaches is always the one of the format
    detected by the decoder: the "unsupported output format" case of
    [encodeImage] is never taken from [main]. *)
Theorem main_encodes_detected_format (Args : list (list byte)) (p : list byte)
    (fmt : imageFormat) :
  Encode p fmt ∈ run Args ->
  (exists inputFile img, image_Decode inputFile = inl (img, fmt)) /\
  forall w img,
    (fmt = str "jpeg" /\ encode w img fmt = jpeg_Encode w img 90) \/
    (fmt = str "png" /\ encode w img fmt = png_Encode w img) \/
    (fmt = str "gif" /\ encode w img fmt = gif_Encode w img).
Proof.
  intros H. apply list_elem_of_In in H.
  run_cases Args; simpl in H; try (intuition discriminate);
    (destruct (originalFormat_of_Some _ _ Hfmt) as [-> Hf];
     assert (Hp : fmt = formatStr)
       by (intuition (try discriminate); congruence);
     subst fmt; split; [eauto|];
     intros w img0; unfold encodeImage;
     destruct Hf as [->|[->| ->]]; auto).
Qed.

(** X15. The last statement of [main], the call that prints "Greyscale
    image saved as" and the output name, is reached exactly on the runs
    that end with status 0, never after a failed step; what it prints is
    the output name of the argument. *)
Theorem main_reports_saved_iff_success (Args : list (list byte)) :
  ((exists p, Stdout (str "Greyscale image saved as " ++ p ++ newline) ∈ run Args) <->
   exit_status (run Args) = Some 0) /\
  forall p, Stdout (str "Greyscale image saved as " ++ p ++ newline) ∈ run Args ->
    exists name, Args !! 1%nat = Some name /\ p = outputFilename name.
Proof.
  split; [split|].
  - intros [p H]. apply list_elem_of_In in H.
    run_cases Args; simpl in H; try reflexivity; exfalso;
      intuition (try discriminate).
  - intros H. run_cases Args; cbn in H; try discriminate.
    exists (outputFilename name). apply list_elem_of_In. simpl. auto 10.
  - intros p H. apply list_elem_of_In in H.
    run_cases Args; simpl in H; try (exfalso; intuition discriminate).
    exists name. split; [assumption|].
    assert (Heq : str "Greyscale image saved as " ++ outputFilename name ++ newline
                  = str "Greyscale image saved as " ++ p ++ newline)
      by (intuition (try discriminate); congruence).
    apply app_inv_head, app_inv_tail in Heq. congruence.
Qed.

End Runs.

(** A run on the sample file system: "in.png" is converted and written as
    "in_greyscale.png". *)
Example demo_run :
  main (list byte) demo_Open demo_Decode demo_Create write_jpeg write_png write_gif
    [str "gogrey"; str "in.png"]
  = [Open (str "in.png");
     Stdout (str "Converting in.png (format: png) to greyscale (Luminosity Method)..."
             ++ newline);
     Stdout (str "Conversion complete." ++ newline);
     Create (str "in_greyscale.png");
     Encode (str "in_greyscale.png") (str "png");
     Stdout (str "Greyscale image saved as in_greyscale.png" ++ newline);
     Close (str "in_greyscale.png");
     Close (str "in.png");
     Exit 0].
Proof. vm_compute. reflexivity. Qed.

(** A run on a file that decodes to [huge_image]: the conversion panics,
    the deferred call closes the input, and the exit status is 2. *)
Example huge_run :
  main (list byte) demo_Open demo_Decode_huge demo_Create write_jpeg write_png write_gif
    [str "gogrey"; str "in.png"]
  = [Open (str "in.png");
     Stdout (str "Converting in.png (format: png) to greyscale (Luminosity Method)..."
             ++ newline);
     Close (str "in.png");
     Panic].
Proof. vm_compute. reflexivity. Qed.


Lemma main_without_argument_witness :
  main (list byte) demo_Open demo_Decode demo_Create write_jpeg write_png write_gif
    [str "gogrey"] = usage /\
  exit_status
    (main (list byte) demo_Open demo_Decode demo_Create write_jpeg write_png write_gif
       [str "gogrey"]) = Some 1 /\
  forall p,
    (Open p ∉ main (list byte) demo_Open demo_Decode demo_Create write_jpeg write_png
                write_gif [str "gogrey"]) /\
    (Create p ∉ main (list byte) demo_Open demo_Decode demo_Create write_jpeg write_png
                  write_gif [str "gogrey"]).
Proof.
  apply (main_without_argument (list byte) demo_Open demo_Decode demo_Create
           write_jpeg write_png write_gif [str "gogrey"]).
  simpl. lia.
Defined.

Lemma main_creates_after_decode_witness :
  exists name inputFile img formatStr,
    [str "gogrey"; str "in.png"] !! 1%nat = Some name /\
    demo_Open name = inl inputFile /\
    demo_Decode inputFile = inl (img, formatStr) /\
    (formatStr = str "jpeg" \/ formatStr = str "png" \/ formatStr = str "gif") /\
    str "in_greyscale.png" = outputFilename name /\
    str "in_greyscale.png" <> name.
Proof.
  apply (main_creates_after_decode (list byte) demo_Open demo_Decode demo_Create
           write_jpeg write_png write_gif [str "gogrey"; str "in.png"]
           (str "in_greyscale.png")).
  apply list_elem_of_In. vm_compute. auto 10.
Defined.

Lemma main_encodes_detected_format_witness :
  (exists inputFile img, demo_Decode inputFile = inl (img, str "png")) /\
  forall w img,
    (str "png" = str "jpeg" /\
     encodeImage _ _ write_jpeg write_png write_gif w img (str "png") = write_jpeg w img 90) \/
    (str "png" = str "png" /\
     encodeImage _ _ write_jpeg write_png write_gif w img (str "png") = write_png w img) \/
    (str "png" = str "gif" /\
     encodeImage _ _ write_jpeg write_png write_gif w img (str "png") = write_gif w img).
Proof.
  apply (main_encodes_detected_format (list byte) demo_Open demo_Decode demo_Create
           write_jpeg write_png write_gif [str "gogrey"; str "in.png"]
           (str "in_greyscale.png") (str "png")).
  apply list_elem_of_In. vm_compute. auto 10.
Defined.
